(** * Canticle: the dependency walker, its two drivers and the source resolver

    A shallow embedding of [canticles/depwalker.go] (the breadth first
    [DependencyWalker], the [DependencyLoader] and the [DependencySaver]),
    of the package error helper [PackageError.IsNoBuildable] and of
    [DependencySources] / [SourcesResolver.ResolveSources].

    Go values are modelled as follows.
    - [string] is [string]; [map[string]bool] and [map[string]*Dependency]
      are [gmap string _]; a [StringSet] is a [gset string].
    - an [error] interface value is a value of [error] below, [nil] is
      [None] of [option error].
    - closures that read and write driver state (the walker's reader and
      handler) take the state and return the new one.
    - the loop of [TraverseDependencies] need not terminate for an arbitrary
      reader, so it runs on fuel. *)

From Stdlib Require Import String Ascii List Bool Permutation Sorted.
From Stdlib Require OrderedTypeEx.
From stdpp Require Import base option gmap strings list fin_maps sets.
Import ListNotations.
Local Open Scope string_scope.
Local Open Scope list_scope.

(** ** Errors *)

(** [PackageError] of package.go (the fields this code reads). *)
Record PackageError : Type := mkPackageError {
  ImportStack : list string;
  Pos : string;
  PErr : string
}.

(** The dynamic values an [error] can hold here.  Interface comparison
    [err == ErrorSkip] is comparison of dynamic type and pointer:
    [ErrorSkip] is the one [*errorString] allocated for the package variable,
    and every other value, whatever its text, is a different one. *)
Inductive error : Type :=
| ErrorSkip
    (* var ErrorSkip = errors.New("skip this dep") *)
| errorString (s : string)
    (* any other result of errors.New or fmt.Errorf *)
| PackageErrorPtr (pe : PackageError)
    (* a *PackageError, as LoadPackage returns *)
| wrapError (s : string) (inner : error).
    (* an error of another type that carries an inner error *)

(** [err.Error()] *)
Definition Error (e : error) : string :=
  match e with
  | ErrorSkip => "skip this dep"
  | errorString s => s
  | PackageErrorPtr pe => PErr pe
  | wrapError s _ => s
  end.

(** [err == ErrorSkip] *)
Definition is_ErrorSkip (e : error) : bool :=
  match e with
  | ErrorSkip => true
  | _ => false
  end.

(** [strings.HasPrefix(s, pre)] *)
Definition HasPrefix (s pre : string) : bool := String.prefix pre s.

(** [func (pe PackageError) IsNoBuildable() bool] *)
Definition IsNoBuildable (pe : PackageError) : bool :=
  HasPrefix (PErr pe) "no buildable Go".

(** ** [sort.Strings]: ascending byte-wise order *)

Fixpoint insert_sorted (x : string) (l : list string) : list string :=
  match l with
  | [] => [x]
  | y :: l' => if String.leb x y then x :: l else y :: insert_sorted x l'
  end.

Definition sort_Strings (l : list string) : list string :=
  fold_right insert_sorted [] l.

(** ** The walker *)

(** The calls a traversal makes to its two function values, in order, each
    with what it returned.  This is a record of the run kept beside the
    walker; the source has no such field. *)
Inductive Call : Type :=
| CallHandle (p : string) (err : option error)
| CallRead (p : string) (children : list string) (err : option error).

Section Walker.
(** The state the two closures share and may change. *)
Context {St : Type}.

(** [type PkgReaderFunc func(pkg string) ([]string, error)] *)
Definition PkgReaderFunc : Type :=
  string -> St -> (list string * option error) * St.

(** [type PkgHandlerFunc func(pkg string) error] *)
Definition PkgHandlerFunc : Type := string -> St -> option error * St.

Record DependencyWalker : Type := mkDependencyWalker {
  nodeQueue : list string;
  visited : gmap string bool;
  readPackage : PkgReaderFunc;
  handleDep : PkgHandlerFunc
}.

Definition NewDependencyWalker (reader : PkgReaderFunc)
    (handler : PkgHandlerFunc) : DependencyWalker :=
  {| nodeQueue := [];
     visited := ∅;
     readPackage := reader;
     handleDep := handler |}.

(** [dw.visited[child]], [false] for a missing key *)
Definition is_visited (v : gmap string bool) (child : string) : bool :=
  default false (v !! child).

(** The inner loop, lines 72-77: children not yet marked are appended. *)
Fixpoint enqueue (v : gmap string bool) (queue children : list string)
    : list string :=
  match children with
  | [] => queue
  | child :: children' =>
      if is_visited v child then enqueue v queue children'
      else enqueue v (queue ++ [child]) children'
  end.

(** A run: the walker, the closures' state and the calls made so far. *)
Record Run : Type := mkRun {
  run_dw : DependencyWalker;
  run_st : St;
  run_calls : list Call
}.

Inductive Flow : Type :=
| Next
| Return (err : option error).

(** One pass through the [for] of [TraverseDependencies] (lines 48-78);
    [pkg] is the argument of the enclosing call. *)
Definition loop_body (pkg : string) (r : Run) : Flow * Run :=
  let dw := run_dw r in
  match nodeQueue dw with
  | [] => (Return None, r)
  | p :: rest =>
      let v := <[p := true]> (visited dw) in
      let '(herr, s1) := handleDep dw p (run_st r) in
      let calls1 := run_calls r ++ [CallHandle p herr] in
      let dw1 := mkDependencyWalker rest v (readPackage dw) (handleDep dw) in
      match herr with
      | Some e =>
          if is_ErrorSkip e then (Next, mkRun dw1 s1 calls1)
          else (Return (Some e), mkRun dw1 s1 calls1)
      | None =>
          let '((children, rerr), s2) := readPackage dw p s1 in
          let calls2 := calls1 ++ [CallRead p children rerr] in
          match rerr with
          | Some e =>
              (Return (Some (errorString
                 ("cant read deps of package " +:+ pkg +:+
                  " with error " +:+ Error e))),
               mkRun dw1 s2 calls2)
          | None =>
              let children := sort_Strings children in
              let dw2 := mkDependencyWalker (enqueue v rest children) v
                           (readPackage dw) (handleDep dw) in
              (Next, mkRun dw2 s2 calls2)
          end
      end
  end.

(** The walker after [p] was taken from the queue and marked (lines
    50-52). *)
Definition dequeued (r : Run) (p : string) (rest : list string)
    : DependencyWalker :=
  mkDependencyWalker rest (<[p := true]> (visited (run_dw r)))
    (readPackage (run_dw r)) (handleDep (run_dw r)).

(** The [for] loop on fuel; [None] when the fuel runs out first. *)
Fixpoint loop (fuel : nat) (pkg : string) (r : Run)
    : option (option error * Run) :=
  match fuel with
  | O => None
  | S fuel' =>
      match loop_body pkg r with
      | (Return err, r') => Some (err, r')
      | (Next, r') => loop fuel' pkg r'
      end
  end.

(** [func (dw *DependencyWalker) TraverseDependencies(pkg string) error] *)
Definition TraverseDependencies (fuel : nat) (pkg : string) (r : Run)
    : option (option error * Run) :=
  let dw := run_dw r in
  let dw0 := mkDependencyWalker (nodeQueue dw ++ [pkg]) (visited dw)
               (readPackage dw) (handleDep dw) in
  loop fuel pkg (mkRun dw0 (run_st r) (run_calls r)).

(** A traversal with a fresh walker. *)
Definition traverse (reader : PkgReaderFunc) (handler : PkgHandlerFunc)
    (fuel : nat) (pkg : string) (s : St) : option (option error * Run) :=
  TraverseDependencies fuel pkg
    (mkRun (NewDependencyWalker reader handler) s []).
End Walker.

Arguments DependencyWalker : clear implicits.
Arguments Run : clear implicits.
Arguments PkgReaderFunc : clear implicits.
Arguments PkgHandlerFunc : clear implicits.

(** How often the handler was called on [p] in a list of calls. *)
Fixpoint handled (p : string) (calls : list Call) : nat :=
  match calls with
  | [] => 0
  | CallHandle q _ :: calls' =>
      (if String.eqb p q then 1 else 0) + handled p calls'
  | CallRead _ _ _ :: calls' => handled p calls'
  end.

(** The shape of the calls of a traversal: the reader is called directly
    after the handler accepted the same node and at no other place; after a
    skip comes the next node; an error of either function ends the calls. *)
Inductive walk : list Call -> Prop :=
| walk_end : walk []
| walk_skip p calls :
    walk calls -> walk (CallHandle p (Some ErrorSkip) :: calls)
| walk_abort p e :
    e <> ErrorSkip -> walk [CallHandle p (Some e)]
| walk_read p children calls :
    walk calls ->
    walk (CallHandle p None :: CallRead p children None :: calls)
| walk_read_fail p children e :
    walk [CallHandle p None; CallRead p children (Some e)].

(** ** A small graph to run the walker on *)

(** A reader over a fixed adjacency list, and a handler that accepts every
    node; neither has state. *)
Definition graph_reader (g : list (string * list string))
    : PkgReaderFunc unit :=
  fun p s =>
    match List.find (fun e => String.eqb (fst e) p) g with
    | Some e => ((snd e, None), s)
    | None => (([], Some (errorString ("no such package " +:+ p))), s)
    end.

Definition accept_all : PkgHandlerFunc unit := fun _ s => (None, s).

Definition diamond : list (string * list string) :=
  [("A", ["B"; "C"]); ("B", ["C"]); ("C", [])].

Definition calls_of {St} (o : option (option error * Run St)) : list Call :=
  match o with
  | Some (_, r) => run_calls r
  | None => []
  end.

Definition result_of {St} (o : option (option error * Run St))
    : option (option error) :=
  match o with
  | Some (e, _) => Some e
  | None => None
  end.

(** ** The dependency graph *)

(** Modelled from the spec: the [Dependency] record (its Go declaration is
    not among the listed sources): an import path, the set of paths it
    imports, the set of paths that import it, and a recorded error. *)
Record Dependency : Type := mkDependency {
  ImportPath : string;
  Imports : gset string;
  ImportedFrom : gset string;
  Err : option error
}.

(** Modelled from the spec: [NewDependency] gives a record with empty sets
    and no error. *)
Definition NewDependency (importPath : string) : Dependency :=
  {| ImportPath := importPath; Imports := ∅; ImportedFrom := ∅; Err := None |}.

Definition set_Err (dep : Dependency) (e : error) : Dependency :=
  {| ImportPath := ImportPath dep; Imports := Imports dep;
     ImportedFrom := ImportedFrom dep; Err := Some e |}.

(** [d.ImportedFrom.Add(pkg)] *)
Definition add_ImportedFrom (pkg : string) (d : Dependency) : Dependency :=
  {| ImportPath := ImportPath d; Imports := Imports d;
     ImportedFrom := {[pkg]} ∪ ImportedFrom d; Err := Err d |}.

(** [dep.Imports.Add(p)] *)
Definition add_Imports (p : string) (d : Dependency) : Dependency :=
  {| ImportPath := ImportPath d; Imports := {[p]} ∪ Imports d;
     ImportedFrom := ImportedFrom d; Err := Err d |}.

(** [Dependencies] is a map from import path to [Dependency]. *)
Abbreviation Dependencies := (gmap string Dependency).

(** Modelled from the spec: [Dependencies.AddDependency], which inserts a
    record for a new import path and otherwise merges into the record
    already there by union of [Imports] and of [ImportedFrom]. *)
Definition AddDependency (d : Dependencies) (dep : Dependency) : Dependencies :=
  match d !! ImportPath dep with
  | None => <[ImportPath dep := dep]> d
  | Some prev =>
      <[ImportPath dep :=
          {| ImportPath := ImportPath prev;
             Imports := Imports prev ∪ Imports dep;
             ImportedFrom := ImportedFrom prev ∪ ImportedFrom dep;
             Err := Err prev |}]> d
  end.

(** Modelled from the spec: [Dependencies.AddDependencies], the same rule
    for every record of a collection. *)
Definition AddDependencies (d : Dependencies) (deps : Dependencies)
    : Dependencies :=
  map_fold (fun _ dep acc => AddDependency acc dep) d deps.

(** ** What the drivers ask of the file system and of version control *)

(** The results of [os.Stat] as the drivers tell them apart: a
    [FileInfo] with its [IsDir], an error for which [os.IsNotExist] holds,
    any other error. *)
Inductive StatResult : Type :=
| StatInfo (isDir : bool)
| StatNotExist (e : error)
| StatFail (e : error).

(** Modelled from the spec: a version control handle (interface [VCS], not
    among the listed sources) as the answers of its queries. *)
Record VCS : Type := mkVCS {
  GetRoot : string;
  GetBranch : string * option error;
  GetRev : string * option error;
  GetSource : string * option error
}.

(** Modelled from the spec: a declared dependency ([CanticleDependency], not
    among the listed sources): a repository root and optional overrides. *)
Record CanticleDependency : Type := mkCanticleDependency {
  CRoot : string;
  CSourcePath : string;
  CRevision : string
}.

(** [RepoResolver.ResolveRepo(importPath, dep) (VCS, error)] *)
Definition RepoResolver : Type :=
  string -> option CanticleDependency -> VCS + error.

(** ** The snapshot driver: [DependencySaver] *)

(** The test of lines 270-275 on the reader's error: it is a
    [*PackageError] and [IsNoBuildable] holds of it. *)
Definition signals_no_buildable (e : error) : bool :=
  match e with
  | PackageErrorPtr pe => IsNoBuildable pe
  | _ => false
  end.

(** [type DepReaderFunc func(importPath string) (Dependencies, error)].  A
    snapshot only reads the disk, so the reader is a function of the path. *)
Definition DepReaderFunc : Type := string -> Dependencies * option error.

Record DependencySaver : Type := mkDependencySaver {
  deps : Dependencies;
  gopath : string;
  root : string;
  read : DepReaderFunc;
  NoRecur : gset string
}.

Definition NewDependencySaver (reader : DepReaderFunc) (gopath root : string)
    : DependencySaver :=
  {| deps := ∅; gopath := gopath; root := root; read := reader;
     NoRecur := ∅ |}.

Definition set_deps (ds : DependencySaver) (d : Dependencies)
    : DependencySaver :=
  {| deps := d; gopath := gopath ds; root := root ds; read := read ds;
     NoRecur := NoRecur ds |}.

(** Lines 283-292 (and 154-163 of the loader): the handled package gets
    every read dependency as an import, and every read dependency gets the
    package in [ImportedFrom]. *)
Definition record_deps (d : Dependencies) (pkg : string)
    (pkgDeps : Dependencies) : Dependencies :=
  let pkgDeps := add_ImportedFrom pkg <$> pkgDeps in
  let d := AddDependencies d pkgDeps in
  let dep := map_fold (fun _ pkgDep dep => add_Imports (ImportPath pkgDep) dep)
               (NewDependency pkg) pkgDeps in
  AddDependency d dep.

Section Saver.
(** The helpers of the repository that are not among the listed sources,
    and the disk. *)
Variable PackageName : string -> string -> string * option error.
Variable PackageSource : string -> string -> string.
Variable PathIsChild : string -> string -> bool.
Variable VisibleSubDirectories : string -> list string * option error.
Variable Stat : string -> StatResult.

(** The [switch] of lines 243-251: the error [err] holds after it. *)
Definition stat_error (path : string) : option error :=
  match Stat path with
  | StatInfo false =>
      Some (errorString ("cant save deps for path " +:+ path +:+
                         " is a file not a directory"))
  | StatInfo true => None
  | StatNotExist _ =>
      Some (errorString ("cant save deps for path " +:+ path +:+
                         " could not be found on disk"))
  | StatFail e =>
      Some (errorString ("cant save deps for path " +:+ path +:+
                         " due to " +:+ Error e))
  end.

(** [func (ds *DependencySaver) SavePackageDeps(path string) error] *)
Definition SavePackageDeps (path : string) (ds : DependencySaver)
    : option error * DependencySaver :=
  let '(pkg, err) := PackageName (gopath ds) path in
  match err with
  | Some _ =>
      (Some (errorString ("Error getting package name for path " +:+ path)),
       ds)
  | None =>
      match stat_error path with
      | Some err =>
          let dep := set_Err (NewDependency pkg) err in
          (Some ErrorSkip, set_deps ds (AddDependency (deps ds) dep))
      | None =>
          if String.eqb path (PackageSource (gopath ds) "") then (None, ds)
          else
            let '(pkgDeps, err) := read ds path in
            match err with
            | Some e =>
                if Nat.eqb (size pkgDeps) 0 then
                  let record :=
                    let dep := set_Err (NewDependency pkg)
                      (errorString ("cant read deps for package " +:+ pkg
                                    +:+ " " +:+ Error e)) in
                    (None, set_deps ds (AddDependency (deps ds) dep)) in
                  match e with
                  | PackageErrorPtr pe =>
                      if IsNoBuildable pe then (None, ds) else record
                  | _ => record
                  end
                else (None, set_deps ds (record_deps (deps ds) pkg pkgDeps))
            | None =>
                (None, set_deps ds (record_deps (deps ds) pkg pkgDeps))
            end
      end
  end.

(** [func (ds *DependencySaver) PackagePaths(path string) ([]string, error)].
    [StringSet.Array] lists a set in no fixed order; [elements] stands for
    it, and the walker sorts what it gets. *)
Definition PackagePaths (path : string) (ds : DependencySaver)
    : (list string * option error) * DependencySaver :=
  let subs :=
    if PathIsChild (root ds) path then
      let '(subdirs, err) := VisibleSubDirectories path in
      match err with
      | Some e => inr e
      | None => inl (list_to_set subdirs : gset string)
      end
    else inl ∅ in
  match subs with
  | inr e => (([], Some e), ds)
  | inl paths =>
      let paths := paths ∖ NoRecur ds in
      let '(pkg, err) := PackageName (gopath ds) path in
      match err with
      | Some e => (([], Some e), ds)
      | None =>
          match deps ds !! pkg with
          | None => ((elements paths, None), ds)
          | Some dep =>
              match Err dep with
              | Some _ => (([], None), ds)
              | None =>
                  let imports := elements (Imports dep) in
                  let paths :=
                    paths ∪ list_to_set (PackageSource (gopath ds) <$> imports) in
                  ((elements paths, None), ds)
              end
          end
      end
  end.
End Saver.

(** ** The fetch and update driver: [DependencyLoader] *)

Section Loader.
(** The disk, which a fetch changes. *)
Context {World : Type}.

Variable PackageSource : string -> string -> string.
Variable PathIsChild : string -> string -> bool.
(** [os.Stat(path)] *)
Variable Stat : World -> string -> StatResult.
(** [vcs.Create(rev)] *)
Variable Create : VCS -> string -> World -> option error * World.

(** [type DependencyReader func(importPath string) (Dependencies, error)] *)
Definition DependencyReader : Type :=
  string -> World -> (Dependencies * option error) * World.

Record DependencyLoader : Type := mkDependencyLoader {
  ldeps : Dependencies;
  cdeps : list CanticleDependency;
  lgopath : string;
  resolver : RepoResolver;
  readDeps : DependencyReader
}.

Definition NewDependencyLoader (resolver : RepoResolver)
    (depReader : DependencyReader) (cdeps : list CanticleDependency)
    (gopath : string) : DependencyLoader :=
  {| ldeps := ∅; cdeps := cdeps; lgopath := gopath; resolver := resolver;
     readDeps := depReader |}.

Definition set_ldeps (dl : DependencyLoader) (d : Dependencies)
    : DependencyLoader :=
  {| ldeps := d; cdeps := cdeps dl; lgopath := lgopath dl;
     resolver := resolver dl; readDeps := readDeps dl |}.

(** [func (dl *DependencyLoader) cdepForPkg(pkg string) *CanticleDependency] *)
Definition cdepForPkg (dl : DependencyLoader) (pkg : string)
    : option CanticleDependency :=
  List.find (fun dep => PathIsChild (CRoot dep) pkg) (cdeps dl).

(** [func (dl *DependencyLoader) fetchPackage(vcs VCS, dep *CanticleDependency) error] *)
Definition fetchPackage (vcs : VCS) (dep : option CanticleDependency)
    (w : World) : option error * World :=
  let '(err, w') := Create vcs "" w in
  match err with
  | Some e =>
      (Some (errorString ("failed to fetch because " +:+ Error e)), w')
  | None => (None, w')
  end.

(** Lines 145-165: read the imports at [path] and record them. *)
Definition load_deps (pkg path : string) (dl : DependencyLoader) (w : World)
    : option error * DependencyLoader * World :=
  let '((pdeps, err), w') := readDeps dl path w in
  match err with
  | Some e =>
      (Some (errorString ("package " +:+ pkg +:+ " couldn't read deps "
                          +:+ Error e)), dl, w')
  | None => (None, set_ldeps dl (record_deps (ldeps dl) pkg pdeps), w')
  end.

(** [func (dl *DependencyLoader) FetchUpdatePackage(pkg string) error] *)
Definition FetchUpdatePackage (pkg : string) (dl : DependencyLoader)
    (w : World) : option error * DependencyLoader * World :=
  let path := PackageSource (lgopath dl) pkg in
  (* ondisk after the switch of lines 118-127, or the error it returns *)
  let ondisk : bool + error :=
    match Stat w path with
    | StatNotExist _ => inl false
    | StatFail e =>
        let _ := errorString
          ("cant fetch package error when stating import path " +:+ Error e) in
        inl true
    | StatInfo false =>
        inr (errorString ("cant fetch pkg for path " +:+ path +:+
                          " is a file not a directory"))
    | StatInfo true => inl true
    end in
  match ondisk with
  | inr e => (Some e, dl, w)
  | inl true => load_deps pkg path dl w
  | inl false =>
      let cdep := cdepForPkg dl pkg in
      match resolver dl pkg cdep with
      | inr e =>
          (Some (errorString (pkg +:+ " version control " +:+ Error e)),
           dl, w)
      | inl vcs =>
          let '(err, w1) := fetchPackage vcs cdep w in
          match err with
          | Some e =>
              (Some (errorString ("cant fetch package " +:+ pkg +:+ " "
                                  +:+ Error e)), dl, w1)
          | None => load_deps pkg path dl w1
          end
      end
  end.

(** [func (dl *DependencyLoader) PackageImports(pkg string) ([]string, error)] *)
Definition PackageImports (pkg : string) (dl : DependencyLoader)
    : list string * option error :=
  match ldeps dl !! pkg with
  | None =>
      ([], Some (errorString ("no dep for " +:+ pkg +:+
                              ", should not be requested")))
  | Some dep => (elements (Imports dep), None)
  end.
End Loader.

Arguments DependencyLoader : clear implicits.
Arguments DependencyReader : clear implicits.

(** ** Sources: [DependencySource], [DependencySources], [SourcesResolver] *)

Record DependencySource : Type := mkDependencySource {
  Revisions : gset string;
  OnDiskRevision : string;
  Sources : gset string;
  OnDiskSource : string;
  Deps : Dependencies;
  Root : string;
  SourceErr : option error
}.

Definition NewDependencySource (root : string) : DependencySource :=
  {| Revisions := ∅; OnDiskRevision := ""; Sources := ∅; OnDiskSource := "";
     Deps := ∅; Root := root; SourceErr := None |}.

(** [source.Deps.AddDependency(dep)] *)
Definition source_add_dep (source : DependencySource) (dep : Dependency)
    : DependencySource :=
  {| Revisions := Revisions source; OnDiskRevision := OnDiskRevision source;
     Sources := Sources source; OnDiskSource := OnDiskSource source;
     Deps := AddDependency (Deps source) dep; Root := Root source;
     SourceErr := SourceErr source |}.

(** [DependencySources] holds a slice of pointers to sources. *)
Abbreviation DependencySources := (list DependencySource).

Record SourcesResolver : Type := mkSourcesResolver {
  RootPath : string;
  Gopath : string;
  Resolver : RepoResolver;
  Branches : bool
}.

Section Resolve.
Variable PackageSource : string -> string -> string.
Variable PathIsChild : string -> string -> bool.

(** The test of line 205: [root] is the import path or a parent of it. *)
Definition under (root importPath : string) : bool :=
  String.eqb root importPath || PathIsChild root importPath.

(** [func (ds *DependencySources) DepSource(dep *Dependency) *DependencySource]:
    the first source whose root the import path is under, with its place
    in the slice (the pointer the Go code returns). *)
Definition DepSource (ds : DependencySources) (dep : Dependency)
    : option (nat * DependencySource) :=
  list_find (fun source => under (Root source) (ImportPath dep) = true) ds.

(** [func (ds *DependencySources) AddSource(source *DependencySource)] *)
Definition AddSource (ds : DependencySources) (source : DependencySource)
    : DependencySources :=
  ds ++ [source].

(** Line 257: the repository is the save root or holds it. *)
Definition at_save_level (sr : SourcesResolver) (root : string) : bool :=
  let rootSrc := PackageSource (Gopath sr) root in
  String.eqb rootSrc (RootPath sr) || PathIsChild rootSrc (RootPath sr).

(** Lines 263-275: the branch if asked for and known, else the revision. *)
Definition on_disk_revision (sr : SourcesResolver) (vcs : VCS)
    : string * option error :=
  let '(rev, err) :=
    if Branches sr then GetBranch vcs else ("", None) in
  if negb (Branches sr) || bool_decide (err ≠ None) then GetRev vcs
  else (rev, err).

(** Lines 276-285: the new source gets its revision, its remote and the
    dependency that led to it. *)
Definition fill_source (source : DependencySource) (rev vcsSource : string)
    (dep : Dependency) : DependencySource :=
  {| Revisions := {[rev]} ∪ Revisions source;
     OnDiskRevision := rev;
     Sources := {[vcsSource]} ∪ Sources source;
     OnDiskSource := vcsSource;
     Deps := AddDependency (Deps source) dep;
     Root := Root source;
     SourceErr := SourceErr source |}.

Inductive Step : Type :=
| Continue (sources : DependencySources)
| Abort (err : error).

(** The body of the [for] of [ResolveSources] for one dependency. *)
Definition resolve_dep (sr : SourcesResolver) (sources : DependencySources)
    (dep : Dependency) : Step :=
  match DepSource sources dep with
  | Some (i, source) =>
      Continue (<[i := source_add_dep source dep]> sources)
  | None =>
      match Resolver sr (ImportPath dep) None with
      | inr _ => Continue sources
      | inl vcs =>
          let root := GetRoot vcs in
          if at_save_level sr root then Continue sources
          else
            let source := NewDependencySource root in
            let '(rev, err) := on_disk_revision sr vcs in
            match err with
            | Some e =>
                Abort (errorString ("cant get revision from vcs at " +:+
                                    root +:+ " " +:+ Error e))
            | None =>
                let '(vcsSource, err) := GetSource vcs in
                match err with
                | Some e =>
                    Abort (errorString ("cant get vcs source from vcs at "
                                        +:+ root +:+ " " +:+ Error e))
                | None =>
                    Continue
                      (AddSource sources (fill_source source rev vcsSource dep))
                end
            end
      end
  end.

(** The [for] over the dependencies in the order [range] yields them. *)
Fixpoint resolve_loop (sr : SourcesResolver) (order : list Dependency)
    (sources : DependencySources)
    : option DependencySources * option error :=
  match order with
  | [] => (Some sources, None)
  | dep :: order' =>
      match resolve_dep sr sources dep with
      | Continue sources' => resolve_loop sr order' sources'
      | Abort e => (None, Some e)
      end
  end.

(** [range deps] yields the records of the map in an order Go does not
    fix. *)
Definition range_of (d : Dependencies) (order : list Dependency) : Prop :=
  order ≡ₚ (map_to_list d).*2.

(** Every record of the graph is stored under its own import path. *)
Definition keyed (d : Dependencies) : Prop :=
  forall k dep, d !! k = Some dep -> ImportPath dep = k.

(** [func (sr *SourcesResolver) ResolveSources(deps Dependencies)], which
    returns a pointer to the sources and an error, for the iteration
    order [order]. *)
Definition ResolveSources (sr : SourcesResolver) (order : list Dependency)
    : option DependencySources * option error :=
  resolve_loop sr order [].
(** The three ways an iteration goes on to the next dependency: a source
    holds the import path already; the repository is not found or is at the
    save root or above; a new source is added. *)
Inductive continues (sr : SourcesResolver) (sources : DependencySources)
    (dep : Dependency) : DependencySources -> Prop :=
| continues_found i source :
    DepSource sources dep = Some (i, source) ->
    continues sr sources dep (<[i := source_add_dep source dep]> sources)
| continues_skipped :
    DepSource sources dep = None ->
    (forall vcs, Resolver sr (ImportPath dep) None = inl vcs ->
                 at_save_level sr (GetRoot vcs) = true) ->
    continues sr sources dep sources
| continues_added vcs rev vcsSource :
    DepSource sources dep = None ->
    Resolver sr (ImportPath dep) None = inl vcs ->
    at_save_level sr (GetRoot vcs) = false ->
    on_disk_revision sr vcs = (rev, None) ->
    GetSource vcs = (vcsSource, None) ->
    continues sr sources dep
      (sources ++
       [fill_source (NewDependencySource (GetRoot vcs)) rev vcsSource dep]).

(** The repository of [dep] is found and has the root [r]. *)
Definition resolves_to (sr : SourcesResolver) (r : string) (dep : Dependency)
    : Prop :=
  exists vcs, Resolver sr (ImportPath dep) None = inl vcs /\ GetRoot vcs = r.

(** No dependency of [order] has a repository with another root than [r]
    that the import path of [t] is under. *)
Definition only_root_over (sr : SourcesResolver) (order : list Dependency)
    (r : string) (t : Dependency) : Prop :=
  forall dep vcs,
    dep ∈ order ->
    Resolver sr (ImportPath dep) None = inl vcs ->
    under (GetRoot vcs) (ImportPath t) = true ->
    GetRoot vcs = r.

(** What holds of the sources after the dependencies [processed], for the
    root [r]: every source has the root of the repository of a processed
    dependency; the records in its [Deps] are processed dependencies under
    their import paths; at most one source has the root [r]; and a processed
    dependency with root [r], and no other root over it, is in a source of
    root [r]. *)
Record held (sr : SourcesResolver) (order : list Dependency) (r : string)
    (processed : list Dependency) (sources : DependencySources)
    : Prop := mkHeld {
  held_roots : forall s, s ∈ sources ->
    exists dep vcs, dep ∈ processed /\
      Resolver sr (ImportPath dep) None = inl vcs /\ Root s = GetRoot vcs;
  held_deps : forall s k dep, s ∈ sources -> Deps s !! k = Some dep ->
    dep ∈ processed /\ ImportPath dep = k;
  held_once : forall i j s s',
    sources !! i = Some s -> sources !! j = Some s' ->
    Root s = r -> Root s' = r -> i = j;
  held_in : forall t, t ∈ processed ->
    resolves_to sr r t -> only_root_over sr order r t ->
    exists s, s ∈ sources /\ Root s = r /\ Deps s !! ImportPath t = Some t
}.
End Resolve.

(** ** Inputs the statements below are run on *)

(** A handler that answers [e] on the node [bad] and accepts the others. *)
Definition reject_at (bad : string) (e : error) : PkgHandlerFunc unit :=
  fun p s => if String.eqb p bad then (Some e, s) else (None, s).

(** A walker in the middle of a traversal of [diamond]: ["A"] is done,
    ["B"] and ["C"] are waiting. *)
Definition midway (handler : PkgHandlerFunc unit) : Run unit :=
  mkRun (mkDependencyWalker ["B"; "C"] {["A" := true]}
           (graph_reader diamond) handler)
        tt [CallHandle "A" None; CallRead "A" ["B"; "C"] None].

(** ** Inputs for the drivers *)

(** A workspace layout to run the drivers on: packages live under
    [gopath/src], and a path outside of it has no import path. *)
Definition ex_PackageSource (gopath pkg : string) : string :=
  if String.eqb pkg "" then gopath +:+ "/src"
  else gopath +:+ "/src/" +:+ pkg.

Definition ex_PackageName (gopath path : string) : string * option error :=
  let src := gopath +:+ "/src/" in
  if String.prefix src path then
    (substring (String.length src) (String.length path - String.length src)
       path, None)
  else ("", Some (errorString ("path " +:+ path +:+ " is not in " +:+ src))).

(** [child] lies below [parent]. *)
Definition ex_PathIsChild (parent child : string) : bool :=
  String.prefix (parent +:+ "/") child.

Definition ex_VisibleSubDirectories (path : string)
    : list string * option error :=
  ([], None).

(** A disk on which every path is a directory. *)
Definition ex_Stat (path : string) : StatResult := StatInfo true.

(** A package reader that finds no Go files anywhere. *)
Definition no_go_files : DepReaderFunc :=
  fun _ => (∅, Some (PackageErrorPtr
    (mkPackageError [] "" "no buildable Go source files in dir"))).

(** A package reader that fails for another reason. *)
Definition broken_reader : DepReaderFunc :=
  fun _ => (∅, Some (errorString "exit status 2")).

Definition ex_saver (reader : DepReaderFunc) : DependencySaver :=
  NewDependencySaver reader "/go" "/go/src/proj".

(** A disk that keeps a log of what was done to it: a fetch writes
    ["create"], a read of dependencies writes ["read " ++ path]; [os.Stat]
    fails on it with a permission error. *)
Definition ex_logged_Stat (w : list string) (path : string) : StatResult :=
  StatFail (errorString "permission denied").

Definition ex_logged_Create (vcs : VCS) (rev : string) (w : list string)
    : option error * list string :=
  (None, w ++ ["create"]).

Definition ex_logged_reader : DependencyReader (list string) :=
  fun path w => ((∅, None), w ++ ["read " +:+ path]).

Definition ex_vcs : VCS :=
  mkVCS "example.org/repo" ("master", None) ("abc123", None)
    ("https://example.org/repo.git", None).

Definition ex_loader : DependencyLoader (list string) :=
  NewDependencyLoader (fun _ _ => inl ex_vcs) ex_logged_reader [] "/go".

(** ** Inputs for the source resolver *)

(** A resolver that looks the import path up in a table. *)
Definition table_resolver (table : list (string * VCS)) : RepoResolver :=
  fun importPath _ =>
    match List.find (fun e => String.eqb (fst e) importPath) table with
    | Some e => inl (snd e)
    | None => inr (errorString ("no repository for " +:+ importPath))
    end.

Definition vcs_at (root : string) : VCS :=
  mkVCS root ("master", None) ("abc123", None)
    ("https://" +:+ root +:+ ".git", None).

(** A checkout of which the revision cannot be told. *)
Definition vcs_without_rev (root : string) : VCS :=
  mkVCS root ("", Some (errorString "not on a branch"))
    ("", Some (errorString "exit status 128"))
    ("https://" +:+ root +:+ ".git", None).

Definition sub1 : Dependency := NewDependency "example.org/repo/sub1".
Definition sub2 : Dependency := NewDependency "example.org/repo/sub2".
Definition tools : Dependency := NewDependency "example.org/tools".
Definition cmd : Dependency := NewDependency "example.com/proj/cmd".
Definition lost : Dependency := NewDependency "example.org/lost".

(** The project is saved at [example.com/proj]; [example.org/repo] is a
    repository of its own, [example.org/lost] has none. *)
Definition ex_table : list (string * VCS) :=
  [("example.org/repo/sub1", vcs_at "example.org/repo");
   ("example.org/repo/sub2", vcs_at "example.org/repo");
   ("example.com/proj/cmd", vcs_at "example.com/proj")].

Definition ex_resolver (table : list (string * VCS)) (branches : bool)
    : SourcesResolver :=
  {| RootPath := "/go/src/example.com/proj"; Gopath := "/go";
     Resolver := table_resolver table; Branches := branches |}.

(** The same workspace when all of [example.org] is one checkout that
    holds the checkout [example.org/repo]. *)
Definition nested_table : list (string * VCS) :=
  ("example.org/tools", vcs_at "example.org") :: ex_table.

(** A graph of four packages. *)
Definition ex_graph : Dependencies :=
  list_to_map ((fun dep => (ImportPath dep, dep)) <$> [cmd; sub1; lost; sub2]).

(** The sources of a pass, none when it failed. *)
Definition sources_of (out : option DependencySources * option error)
    : DependencySources :=
  default [] (fst out).

(** ** package.go: packages and their imports *)

(** [go/build.IsLocalImport]: the path is [.], [..] or starts with [./] or
    [../]. *)
Definition IsLocalImport (path : string) : bool :=
  String.eqb path "." || String.eqb path ".." ||
  HasPrefix path "./" || HasPrefix path "../".

(** [strings.Split(s, sep)] for a separator of one byte: the pieces of [s]
    between the separators, one piece more than there are separators. *)
Fixpoint Split (s : string) (sep : ascii) : list string :=
  match s with
  | EmptyString => [EmptyString]
  | String c s' =>
      if Ascii.eqb c sep then EmptyString :: Split s' sep
      else
        match Split s' sep with
        | [] => [String c EmptyString]
        | piece :: pieces => String c piece :: pieces
        end
  end.

(** [func IsRemote(importPath string) bool] *)
Definition IsRemote (importPath : string) : bool :=
  if IsLocalImport importPath then false
  else
    let parts := Split importPath "/"%char in
    if Nat.ltb (length parts) 2 then false
    else
      let domainParts := Split (List.hd "" parts) "."%char in
      if Nat.ltb (length domainParts) 2 then false else true.

(** The loop of [filterStrings]: [filtered] grows by the strings [f]
    accepts. *)
Fixpoint filterStrings_loop (filtered strings : list string)
    (f : string -> bool) : list string :=
  match strings with
  | [] => filtered
  | s :: strings' =>
      filterStrings_loop (if f s then filtered ++ [s] else filtered) strings' f
  end.

(** [func filterStrings(strings []string, f func(string) bool) []string] *)
Definition filterStrings (strings : list string) (f : string -> bool)
    : list string :=
  filterStrings_loop [] strings f.

(** [Package], with the fields this code reads. *)
Record Package : Type := mkPackage {
  PImportPath : string;
  PImports : list string;
  PTestImports : list string;
  PError : option PackageError
}.

(** [func (p *Package) RemoteImports(includeTest bool) []string] *)
Definition RemoteImports (p : Package) (includeTest : bool) : list string :=
  let imports := PImports p in
  let imports := if includeTest then imports ++ PTestImports p else imports in
  filterStrings imports IsRemote.

Section LoadPackage.
(** The outcome of running [go list --json -e pkgPath] with [GOPATH] set to
    [gohome]: the combined output and the error of the command. *)
Variable go_list : string -> string -> string * option error.
(** [json.Unmarshal(result, pkg)]: the package as filled in, and the error. *)
Variable Unmarshal : string -> Package * option error.

(** [func LoadPackage(pkgPath, gohome string)], which returns a pointer to
    the package or [nil], and the error. *)
Definition LoadPackage (pkgPath gohome : string)
    : option Package * option error :=
  let '(result, err) := go_list pkgPath gohome in
  match err with
  | Some _ => (None, Some (errorString result))
  | None =>
      let '(pkg, err) := Unmarshal result in
      match err with
      | Some e => (None, Some e)
      | None =>
          match PError pkg with
          | Some pe => (None, Some (PackageErrorPtr pe))
          | None => (Some pkg, None)
          end
      end
  end.
End LoadPackage.

(** [c] occurs in [s]. *)
Fixpoint has_byte (c : ascii) (s : string) : bool :=
  match s with
  | EmptyString => false
  | String c' s' => Ascii.eqb c' c || has_byte c s'
  end.

(** ** Measures of a traversal *)

(** The nodes of [nodes] not yet marked. *)
Definition unvisited (nodes : gset string) (v : gmap string bool) : nat :=
  size (filter (fun c => is_visited v c = false) nodes).

(** The entries of the queue whose node is marked already. *)
Definition revisits (v : gmap string bool) (queue : list string) : nat :=
  length (filter (fun q => is_visited v q = true) queue).

(** The nodes the handler was called on, in a list of calls. *)
Fixpoint handled_nodes (calls : list Call) : list string :=
  match calls with
  | [] => []
  | CallHandle p _ :: calls' => p :: handled_nodes calls'
  | CallRead _ _ _ :: calls' => handled_nodes calls'
  end.

(** A graph with cycles: every node leads back to ["A"]. *)
Definition cycle : list (string * list string) :=
  [("A", ["B"; "C"]); ("B", ["C"; "A"]); ("C", ["A"])].

(** A fresh walker over [cycle] with ["A"] in the queue. *)
Definition cycle_start : Run unit :=
  mkRun (mkDependencyWalker ["A"] ∅ (graph_reader cycle) accept_all) tt [].

(** The run a loop ended in, [r0] when it did not end. *)
Definition run_of {St} (r0 : Run St) (o : option (option error * Run St))
    : Run St :=
  match o with
  | Some (_, r) => r
  | None => r0
  end.

(** ** More inputs for the drivers *)

(** Two dependencies, as a package reader returns them. *)
Definition two_deps : Dependencies :=
  <[ImportPath sub1 := sub1]> (<[ImportPath sub2 := sub2]> ∅).

(** A reader on the logging disk that finds [two_deps]. *)
Definition ex_reader_two : DependencyReader (list string) :=
  fun path w => ((two_deps, None), w ++ ["read " +:+ path]).

Definition ex_loader_two : DependencyLoader (list string) :=
  NewDependencyLoader (fun _ _ => inl ex_vcs) ex_reader_two [] "/go".

(** A loader whose resolver knows no repository. *)
Definition ex_loader_lost : DependencyLoader (list string) :=
  NewDependencyLoader (table_resolver []) ex_reader_two [] "/go".

Definition ex_missing_Stat (w : list string) (path : string) : StatResult :=
  StatNotExist (errorString "no such file or directory").

(** A package reader that returns [two_deps] and an error with them. *)
Definition reader_with_error : DepReaderFunc :=
  fun _ => (two_deps, Some (errorString "exit status 1")).

(** The snapshot walker at the start of a traversal from [path]. *)
Definition snapshot_start (reader : DepReaderFunc) (path : string)
    : Run DependencySaver :=
  mkRun (mkDependencyWalker [path] ∅
           (PackagePaths ex_PackageName ex_PackageSource ex_PathIsChild
              ex_VisibleSubDirectories)
           (SavePackageDeps ex_PackageName ex_PackageSource ex_Stat))
        (ex_saver reader) [].

(** ** Where the dependencies of a pass end up *)

Section Placement.
Variable PackageSource : string -> string -> string.
Variable PathIsChild : string -> string -> bool.

(** A dependency the pass leaves out when no source holds its path yet: its
    repository is not found, or is at the save root or above. *)
Definition left_out (sr : SourcesResolver) (dep : Dependency) : Prop :=
  (exists e, Resolver sr (ImportPath dep) None = inr e) \/
  (exists vcs, Resolver sr (ImportPath dep) None = inl vcs /\
               at_save_level PackageSource PathIsChild sr (GetRoot vcs) = true).

(** What holds of the sources after the dependencies [processed]: the
    records in the sources are processed dependencies under their import
    paths, no import path is in two sources, and every processed dependency
    is in a source or left out. *)
Record placed (sr : SourcesResolver) (processed : list Dependency)
    (sources : DependencySources) : Prop := mkPlaced {
  placed_deps : forall s k dep, s ∈ sources -> Deps s !! k = Some dep ->
    dep ∈ processed /\ ImportPath dep = k;
  placed_once : forall i j s s' k,
    sources !! i = Some s -> sources !! j = Some s' ->
    is_Some (Deps s !! k) -> is_Some (Deps s' !! k) -> i = j;
  placed_all : forall dep, dep ∈ processed ->
    (exists s, s ∈ sources /\ Deps s !! ImportPath dep = Some dep) \/
    left_out sr dep
}.

(** A source as a pass makes them: one revision and one remote, those on
    disk, no error, and at least one dependency. *)
Definition well_formed_source (source : DependencySource) : Prop :=
  Revisions source = {[OnDiskRevision source]} /\
  Sources source = {[OnDiskSource source]} /\
  SourceErr source = None /\
  Deps source <> ∅.

(** The source has the root, the revision and the remote of the repository
    of [dep]. *)
Definition source_of_repo (sr : SourcesResolver) (dep : Dependency)
    (source : DependencySource) : Prop :=
  exists vcs,
    Resolver sr (ImportPath dep) None = inl vcs /\
    Root source = GetRoot vcs /\
    on_disk_revision sr vcs = (OnDiskRevision source, None) /\
    GetSource vcs = (OnDiskSource source, None).
End Placement.

(** A checkout on a branch whose revision cannot be told. *)
Definition vcs_on_branch (root : string) : VCS :=
  mkVCS root ("feature", None) ("", Some (errorString "exit status 128"))
    ("https://" +:+ root +:+ ".git", None).

(** Cases on membership in a list that is written out. *)
Ltac each_member H :=
  repeat (apply elem_of_cons in H as [->|H]);
  [.. | by apply elem_of_nil in H].

(** * Properties of the walker *)

Lemma insert_sorted_Permutation x l : insert_sorted x l ≡ₚ x :: l.
Proof.
  induction l as [|y l IH]; simpl; [done|].
  destruct (String.leb x y); [done|].
  rewrite IH. apply Permutation_swap.
Qed.

Lemma sort_Strings_Permutation l : sort_Strings l ≡ₚ l.
Proof.
  induction l as [|x l IH]; simpl; [done|].
  fold (sort_Strings l). by rewrite insert_sorted_Permutation, IH.
Qed.

Lemma insert_sorted_HdRel a x l :
  String.leb a x = true ->
  HdRel (fun a b => String.leb a b = true) a l ->
  HdRel (fun a b => String.leb a b = true) a (insert_sorted x l).
Proof.
  intros Hax Hal. destruct l as [|y l]; simpl; [by constructor|].
  destruct (String.leb x y); constructor; [done|].
  by inversion Hal.
Qed.

Lemma insert_sorted_Sorted x l :
  Sorted (fun a b => String.leb a b = true) l ->
  Sorted (fun a b => String.leb a b = true) (insert_sorted x l).
Proof.
  induction 1 as [|y l Hsorted IH Hhd]; simpl.
  - repeat constructor.
  - destruct (String.leb x y) eqn:Hxy.
    + constructor; [by constructor | by constructor].
    + constructor; [done|]. apply insert_sorted_HdRel; [|done].
      by destruct (String.leb_total x y) as [Hle|Hle]; [congruence|].
Qed.

Lemma sort_Strings_Sorted l :
  Sorted (fun a b => String.leb a b = true) (sort_Strings l).
Proof.
  induction l as [|x l IH]; simpl; [constructor|].
  by apply insert_sorted_Sorted.
Qed.

Lemma leb_iff a b :
  String.leb a b = true <-> a = b \/ OrderedTypeEx.String_as_OT.lt a b.
Proof.
  unfold String.leb.
  destruct (String.compare a b) eqn:Hcmp; split; try done.
  - intros _. left. by apply OrderedTypeEx.String_as_OT.cmp_eq.
  - intros _. right. by apply OrderedTypeEx.String_as_OT.cmp_lt.
  - intros [->|Hlt].
    + pose proof (proj2 (OrderedTypeEx.String_as_OT.cmp_eq b b) eq_refl) as Heq.
      unfold OrderedTypeEx.String_as_OT.cmp in Heq. congruence.
    + apply OrderedTypeEx.String_as_OT.cmp_lt in Hlt.
      unfold OrderedTypeEx.String_as_OT.cmp in Hlt. congruence.
Qed.

Lemma leb_trans a b c :
  String.leb a b = true -> String.leb b c = true -> String.leb a c = true.
Proof.
  rewrite !leb_iff. intros [->|Hab] [->|Hbc]; auto.
  right. by eapply OrderedTypeEx.String_as_OT.lt_trans.
Qed.

Lemma sort_Strings_StronglySorted l :
  StronglySorted (fun a b => String.leb a b = true) (sort_Strings l).
Proof.
  apply Sorted_StronglySorted; [|apply sort_Strings_Sorted].
  intros a b c. apply leb_trans.
Qed.

Lemma StronglySorted_filter {A} (R : A -> A -> Prop) (P : A -> Prop)
    `{forall x, Decision (P x)} (l : list A) :
  StronglySorted R l -> StronglySorted R (filter P l).
Proof.
  induction 1 as [|x l Hsorted IH Hall]; [constructor|].
  rewrite filter_cons. destruct (decide (P x)); [|done].
  constructor; [done|].
  rewrite Forall_forall in *. intros y [_ Hy]%list_elem_of_filter. auto.
Qed.

Section WalkerFacts.
Context {St : Type}.
Implicit Types (r : Run St) (p pkg : string) (e : error).

Lemma loop_S fuel pkg r :
  loop (S fuel) pkg r =
  match loop_body pkg r with
  | (Return err, r') => Some (err, r')
  | (Next, r') => loop fuel pkg r'
  end.
Proof. reflexivity. Qed.

Lemma loop_body_skip pkg r p rest s' :
  nodeQueue (run_dw r) = p :: rest ->
  handleDep (run_dw r) p (run_st r) = (Some ErrorSkip, s') ->
  loop_body pkg r =
  (Next, mkRun (dequeued r p rest) s'
           (run_calls r ++ [CallHandle p (Some ErrorSkip)])).
Proof.
  intros Hq Hh. unfold loop_body, dequeued.
  rewrite Hq, Hh. reflexivity.
Qed.

Lemma loop_body_abort pkg r p rest e s' :
  nodeQueue (run_dw r) = p :: rest ->
  handleDep (run_dw r) p (run_st r) = (Some e, s') ->
  e <> ErrorSkip ->
  loop_body pkg r =
  (Return (Some e),
   mkRun (dequeued r p rest) s' (run_calls r ++ [CallHandle p (Some e)])).
Proof.
  intros Hq Hh Hne. unfold loop_body, dequeued.
  rewrite Hq, Hh.
  destruct e; try reflexivity. congruence.
Qed.

(** C7: when the handler answers [ErrorSkip] for the node at the head of
    the queue, that pass of the loop calls nothing but the handler (the
    closures' state is the one the handler left, the only call added is
    the handler's), the queue after it is the rest of the queue with no
    child appended, and the traversal goes on from there. *)
Theorem C7_skip_reads_no_children fuel pkg r p rest s' :
  nodeQueue (run_dw r) = p :: rest ->
  handleDep (run_dw r) p (run_st r) = (Some ErrorSkip, s') ->
  let r' := mkRun (dequeued r p rest) s'
              (run_calls r ++ [CallHandle p (Some ErrorSkip)]) in
  loop_body pkg r = (Next, r') /\
  nodeQueue (run_dw r') = rest /\
  loop (S fuel) pkg r = loop fuel pkg r'.
Proof.
  intros Hq Hh r'.
  pose proof (loop_body_skip pkg r p rest s' Hq Hh) as Hb.
  split; [exact Hb|]. split; [reflexivity|].
  rewrite loop_S, Hb. reflexivity.
Qed.

Lemma loop_abort fuel pkg r p rest e s' :
  nodeQueue (run_dw r) = p :: rest ->
  handleDep (run_dw r) p (run_st r) = (Some e, s') ->
  e <> ErrorSkip ->
  loop (S fuel) pkg r =
  Some (Some e,
        mkRun (dequeued r p rest) s'
          (run_calls r ++ [CallHandle p (Some e)])).
Proof.
  intros Hq Hh Hne.
  rewrite loop_S, (loop_body_abort pkg r p rest e s' Hq Hh Hne).
  reflexivity.
Qed.

(** The error a failed read gives names [pkg], the argument of
    [TraverseDependencies], whatever node [p] was read. *)
Lemma loop_read_error fuel pkg r p rest s1 children e s2 :
  nodeQueue (run_dw r) = p :: rest ->
  handleDep (run_dw r) p (run_st r) = (None, s1) ->
  readPackage (run_dw r) p s1 = ((children, Some e), s2) ->
  loop (S fuel) pkg r =
  Some (Some (errorString ("cant read deps of package " +:+ pkg +:+
                           " with error " +:+ Error e)),
        mkRun (dequeued r p rest) s2
          (run_calls r ++ [CallHandle p None] ++
           [CallRead p children (Some e)])).
Proof.
  intros Hq Hh Hr. rewrite loop_S. unfold loop_body, dequeued.
  rewrite Hq, Hh, Hr. rewrite <- app_assoc. reflexivity.
Qed.

(** C10: when the handler answers an error that is not the value
    [ErrorSkip] itself, whatever it wraps and whatever its text, the
    traversal returns that same error at once: the reader is not called
    and nothing is appended to the queue. *)
Theorem C10_only_the_sentinel_skips fuel pkg r p rest e s' :
  nodeQueue (run_dw r) = p :: rest ->
  handleDep (run_dw r) p (run_st r) = (Some e, s') ->
  e <> ErrorSkip ->
  loop (S fuel) pkg r =
  Some (Some e,
        mkRun (dequeued r p rest) s'
          (run_calls r ++ [CallHandle p (Some e)])).
Proof. exact (loop_abort fuel pkg r p rest e s'). Qed.

Lemma enqueue_filter (v : gmap string bool) queue children :
  enqueue v queue children =
  queue ++ filter (fun child => is_visited v child = false) children.
Proof.
  revert queue. induction children as [|child children IH]; intros queue.
  - by rewrite app_nil_r.
  - simpl. rewrite filter_cons.
    destruct (is_visited v child) eqn:Hv.
    + rewrite decide_False; [apply IH | done].
    + rewrite decide_True; [|done]. by rewrite IH, <- app_assoc.
Qed.

(** The calls of a finished run of the loop extend the calls made before
    by a [walk]. *)
Theorem loop_calls_walk fuel pkg r :
  is_Some (loop fuel pkg r) ->
  exists new, calls_of (loop fuel pkg r) = run_calls r ++ new /\ walk new.
Proof.
  revert r. induction fuel as [|fuel IH]; intros r [out Hout].
  { discriminate. }
  rewrite loop_S in *. unfold loop_body in *.
  destruct (nodeQueue (run_dw r)) as [|p rest].
  { exists []. split; [by rewrite app_nil_r | constructor]. }
  destruct (handleDep (run_dw r) p (run_st r)) as [[e|] s1].
  - destruct e as [ | msg | pe | msg inner]; simpl in *;
      try (eexists [_]; split; [reflexivity | by constructor]).
    destruct (IH _ (ex_intro _ out Hout)) as (new & Hcalls & Hwalk).
    exists (CallHandle p (Some ErrorSkip) :: new).
    split; [|by constructor].
    rewrite Hcalls. simpl. by rewrite <- app_assoc.
  - destruct (readPackage (run_dw r) p s1) as [[children [e|]] s2];
      simpl in *.
    + eexists [_; _]. split; [by rewrite <- app_assoc | constructor].
    + destruct (IH _ (ex_intro _ out Hout)) as (new & Hcalls & Hwalk).
      exists (CallHandle p None :: CallRead p children None :: new).
      split; [|by constructor].
      rewrite Hcalls. simpl. by rewrite <- !app_assoc.
Qed.

(** After the handler accepted the head of the queue and its children were
    read, the queue is the rest of it followed by the children that are not
    marked; these are appended in ascending order, and sorting the children
    only permutes them. *)
Theorem children_enqueued_sorted pkg r p rest s1 children s2 :
  nodeQueue (run_dw r) = p :: rest ->
  handleDep (run_dw r) p (run_st r) = (None, s1) ->
  readPackage (run_dw r) p s1 = ((children, None), s2) ->
  let v := <[p := true]> (visited (run_dw r)) in
  let added := filter (fun child => is_visited v child = false)
                 (sort_Strings children) in
  fst (loop_body pkg r) = Next /\
  nodeQueue (run_dw (snd (loop_body pkg r))) = rest ++ added /\
  StronglySorted (fun a b => String.leb a b = true) added /\
  sort_Strings children ≡ₚ children.
Proof.
  intros Hq Hh Hr v added. unfold loop_body. rewrite Hq, Hh, Hr. simpl.
  split; [done|]. split; [apply enqueue_filter|].
  split; [|apply sort_Strings_Permutation].
  apply StronglySorted_filter, sort_Strings_StronglySorted.
Qed.
End WalkerFacts.

(** The handler skips ["B"]: ["C"] is next, and the child of ["B"] was
    never asked for. *)
Lemma C7_skip_witness :
  let r := midway (reject_at "B" ErrorSkip) in
  let r' := mkRun (dequeued r "B" ["C"]) tt
              (run_calls r ++ [CallHandle "B" (Some ErrorSkip)]) in
  loop_body "A" r = (Next, r') /\
  nodeQueue (run_dw r') = ["C"] /\
  loop 3 "A" r = loop 2 "A" r'.
Proof.
  apply (C7_skip_reads_no_children 2 "A"
           (midway (reject_at "B" ErrorSkip)) "B" ["C"] tt);
    reflexivity.
Defined.

(** An error that wraps [ErrorSkip] and has its text stops the traversal. *)
Lemma C10_wrapped_skip_witness :
  let e := wrapError "skip this dep" ErrorSkip in
  let r := midway (reject_at "B" e) in
  loop 3 "A" r =
  Some (Some e,
        mkRun (dequeued r "B" ["C"]) tt
          (run_calls r ++ [CallHandle "B" (Some e)])).
Proof.
  apply (C10_only_the_sentinel_skips 2 "A"
           (midway (reject_at "B" (wrapError "skip this dep" ErrorSkip)))
           "B" ["C"] (wrapError "skip this dep" ErrorSkip) tt);
    [reflexivity | reflexivity | discriminate].
Defined.

(** The rest of the diamond, with ["B"] skipped, is a walk. *)
Lemma skipping_run_is_a_walk :
  let r := midway (reject_at "B" ErrorSkip) in
  exists new, calls_of (loop 5 "A" r) = run_calls r ++ new /\ walk new.
Proof.
  apply (loop_calls_walk 5 "A" (midway (reject_at "B" ErrorSkip))).
  vm_compute. by eexists.
Defined.

(** The children of ["A"], read as ["C"; "B"], are appended as ["B"; "C"]. *)
Lemma diamond_children_sorted :
  let reader := graph_reader [("A", ["C"; "B"])] in
  let r := mkRun (mkDependencyWalker ["A"] ∅ reader accept_all) tt [] in
  let added := filter (fun child => is_visited {["A" := true]} child = false)
                 (sort_Strings ["C"; "B"]) in
  fst (loop_body "A" r) = Next /\
  nodeQueue (run_dw (snd (loop_body "A" r))) = [] ++ added /\
  StronglySorted (fun a b => String.leb a b = true) added /\
  sort_Strings ["C"; "B"] ≡ₚ ["C"; "B"].
Proof.
  apply (children_enqueued_sorted "A"
           (mkRun (mkDependencyWalker ["A"] ∅
                     (graph_reader [("A", ["C"; "B"])]) accept_all) tt [])
           "A" [] tt ["C"; "B"] tt);
    reflexivity.
Defined.

Example diamond_children_queue :
  let reader := graph_reader [("A", ["C"; "B"])] in
  let r := mkRun (mkDependencyWalker ["A"] ∅ reader accept_all) tt [] in
  nodeQueue (run_dw (snd (loop_body "A" r))) = ["B"; "C"].
Proof. vm_compute. reflexivity. Qed.

(** A fresh error with the text of [ErrorSkip] stops it as well. *)
Example same_text_aborts :
  result_of (traverse (graph_reader diamond)
               (reject_at "B" (errorString "skip this dep")) 10 "A" tt) =
  Some (Some (errorString "skip this dep")).
Proof. vm_compute. reflexivity. Qed.

(** C1: on the diamond [A -> B, C] and [B -> C] the traversal ends without
    error and has called the handler once on ["A"], once on ["B"] and twice
    on ["C"]: ["C"] is appended by ["A"] and again by ["B"], since a node is
    marked only when it leaves the queue. *)
Theorem C1_diamond_handles_C_twice :
  let run := traverse (graph_reader diamond) accept_all 10 "A" tt in
  result_of run = Some None /\
  calls_of run =
    [CallHandle "A" None; CallRead "A" ["B"; "C"] None;
     CallHandle "B" None; CallRead "B" ["C"] None;
     CallHandle "C" None; CallRead "C" [] None;
     CallHandle "C" None; CallRead "C" [] None] /\
  handled "A" (calls_of run) = 1 /\
  handled "B" (calls_of run) = 1 /\
  handled "C" (calls_of run) = 2.
Proof. vm_compute. repeat split; reflexivity. Qed.

(** C3: the start node ["A"] imports ["B"], and the reader fails on ["B"].
    The error the traversal returns names ["A"], the argument of
    [TraverseDependencies], and not ["B"], the node that could not be
    read. *)
Theorem C3_read_error_names_start_node :
  let run := traverse (graph_reader [("A", ["B"])]) accept_all 10 "A" tt in
  calls_of run =
    [CallHandle "A" None; CallRead "A" ["B"] None;
     CallHandle "B" None;
     CallRead "B" [] (Some (errorString "no such package B"))] /\
  result_of run =
    Some (Some (errorString
      "cant read deps of package A with error no such package B")).
Proof. vm_compute. split; reflexivity. Qed.

(** * Properties of the snapshot driver *)

Section SaverFacts.
Variable PackageName : string -> string -> string * option error.
Variable PackageSource : string -> string -> string.
Variable Stat : string -> StatResult.

Local Abbreviation SavePackageDeps' :=
  (SavePackageDeps PackageName PackageSource Stat).

Lemma AddDependency_fresh (d : Dependencies) (dep : Dependency) :
  d !! ImportPath dep = None ->
  AddDependency d dep !! ImportPath dep = Some dep.
Proof.
  intros Hd. unfold AddDependency. rewrite Hd.
  apply lookup_insert_eq.
Qed.

(** C2, as the code has it: when no import path can be derived for
    [path], the handler records nothing and returns an error of its own
    that names the path; a traversal that handles [path] returns this
    error at once. *)
Theorem C2_no_import_path_aborts path ds pkg e fuel pkg0
    (r : Run DependencySaver) rest :
  PackageName (gopath ds) path = (pkg, Some e) ->
  nodeQueue (run_dw r) = path :: rest ->
  handleDep (run_dw r) = SavePackageDeps PackageName PackageSource Stat ->
  run_st r = ds ->
  let err := errorString ("Error getting package name for path " +:+ path) in
  SavePackageDeps PackageName PackageSource Stat path ds = (Some err, ds) /\
  loop (S fuel) pkg0 r =
    Some (Some err,
          mkRun (dequeued r path rest) ds
            (run_calls r ++ [CallHandle path (Some err)])).
Proof.
  intros Hn Hq Hh Hs err.
  assert (Hsave : SavePackageDeps' path ds = (Some err, ds)).
  { unfold SavePackageDeps. rewrite Hn. reflexivity. }
  split; [exact Hsave|].
  apply loop_abort; [exact Hq | | discriminate].
  rewrite Hh, Hs. exact Hsave.
Qed.

(** C6: the path has an import path [pkg], is a directory and is not the
    bare source root, and the reader returns no dependency and an error
    [e].  If [e] is a [*PackageError] of which [IsNoBuildable] holds, the
    saver is unchanged and [nil] is returned; otherwise a [Dependency] for
    [pkg] whose [Err] has the text of [e] in it is handed to
    [AddDependency] and [nil] is returned, and when [pkg] had no record
    yet this placeholder is its record. *)
Theorem C6_read_error_is_recorded path ds pkg pkgDeps e :
  PackageName (gopath ds) path = (pkg, None) ->
  Stat path = StatInfo true ->
  path <> PackageSource (gopath ds) "" ->
  read ds path = (pkgDeps, Some e) ->
  size pkgDeps = 0 ->
  let placeholder :=
    set_Err (NewDependency pkg)
      (errorString ("cant read deps for package " +:+ pkg +:+ " " +:+
                    Error e)) in
  SavePackageDeps PackageName PackageSource Stat path ds =
    (None,
     if signals_no_buildable e then ds
     else set_deps ds (AddDependency (deps ds) placeholder)) /\
  (signals_no_buildable e = false ->
   deps ds !! pkg = None ->
   deps (snd (SavePackageDeps PackageName PackageSource Stat path ds)) !! pkg
     = Some placeholder).
Proof.
  intros Hn Hst Hne Hr Hsz placeholder.
  assert (Hsave : SavePackageDeps' path ds =
    (None, if signals_no_buildable e then ds
           else set_deps ds (AddDependency (deps ds) placeholder))).
  { unfold SavePackageDeps, stat_error. rewrite Hn, Hst.
    apply String.eqb_neq in Hne. rewrite Hne, Hr, Hsz. simpl.
    destruct e as [ | s | pe | s inner]; simpl; try reflexivity.
    destruct (IsNoBuildable pe); reflexivity. }
  split; [exact Hsave|].
  intros Hsig Hfresh. rewrite Hsave, Hsig. simpl.
  apply (AddDependency_fresh (deps ds) placeholder). exact Hfresh.
Qed.
(** When the path has an import path [pkg] but is no directory (a file,
    missing, or not to be examined), a [Dependency] for [pkg] with the error
    of the stat is handed to [AddDependency] and [ErrorSkip] is returned. *)
Theorem stat_failure_is_skipped path ds pkg :
  PackageName (gopath ds) path = (pkg, None) ->
  Stat path <> StatInfo true ->
  exists e,
    stat_error Stat path = Some e /\
    SavePackageDeps PackageName PackageSource Stat path ds =
      (Some ErrorSkip,
       set_deps ds (AddDependency (deps ds) (set_Err (NewDependency pkg) e))).
Proof.
  intros Hn Hst. unfold SavePackageDeps. rewrite Hn.
  unfold stat_error. destruct (Stat path) as [[|]|e|e]; [done|..];
    eexists; (split; [reflexivity|reflexivity]).
Qed.
End SaverFacts.

(** Against C2 as the specification has it: ["/tmp/other"] is outside the
    workspace, so no import path can be derived for it.  The handler returns
    an error that is not [ErrorSkip] and leaves the dependencies empty, and
    the snapshot traversal started there returns that error. *)
Lemma C2_counterexample :
  let ds := ex_saver no_go_files in
  let save := SavePackageDeps ex_PackageName ex_PackageSource ex_Stat in
  let paths := PackagePaths ex_PackageName ex_PackageSource ex_PathIsChild
                 ex_VisibleSubDirectories in
  let err := errorString "Error getting package name for path /tmp/other" in
  snd (ex_PackageName (gopath ds) "/tmp/other") <> None /\
  fst (save "/tmp/other" ds) = Some err /\
  fst (save "/tmp/other" ds) <> Some ErrorSkip /\
  deps (snd (save "/tmp/other" ds)) = ∅ /\
  result_of (traverse paths save 10 "/tmp/other" ds) = Some (Some err).
Proof.
  cbv zeta. repeat split; try discriminate; reflexivity.
Qed.

Lemma C2_abort_witness :
  let ds := ex_saver no_go_files in
  let save := SavePackageDeps ex_PackageName ex_PackageSource ex_Stat in
  let paths := PackagePaths ex_PackageName ex_PackageSource ex_PathIsChild
                 ex_VisibleSubDirectories in
  let r := mkRun (mkDependencyWalker ["/tmp/other"] ∅ paths save) ds [] in
  let err := errorString "Error getting package name for path /tmp/other" in
  save "/tmp/other" ds = (Some err, ds) /\
  loop 1 "/tmp/other" r =
    Some (Some err,
          mkRun (dequeued r "/tmp/other" []) ds
            [CallHandle "/tmp/other" (Some err)]).
Proof.
  apply (C2_no_import_path_aborts ex_PackageName ex_PackageSource ex_Stat
           "/tmp/other" (ex_saver no_go_files) ""
           (errorString "path /tmp/other is not in /go/src/") 0 "/tmp/other"
           (mkRun (mkDependencyWalker ["/tmp/other"] ∅
                     (PackagePaths ex_PackageName ex_PackageSource
                        ex_PathIsChild ex_VisibleSubDirectories)
                     (SavePackageDeps ex_PackageName ex_PackageSource ex_Stat))
                  (ex_saver no_go_files) []) []);
    reflexivity.
Defined.

(** A reader that fails with exit status 2 on a package not yet recorded. *)
Lemma C6_broken_reader_witness :
  let ds := ex_saver broken_reader in
  let save := SavePackageDeps ex_PackageName ex_PackageSource ex_Stat in
  let placeholder :=
    set_Err (NewDependency "proj/pkg")
      (errorString "cant read deps for package proj/pkg exit status 2") in
  save "/go/src/proj/pkg" ds =
    (None, set_deps ds (AddDependency (deps ds) placeholder)) /\
  (signals_no_buildable (errorString "exit status 2") = false ->
   deps ds !! "proj/pkg" = None ->
   deps (snd (save "/go/src/proj/pkg" ds)) !! "proj/pkg" = Some placeholder).
Proof.
  apply (C6_read_error_is_recorded ex_PackageName ex_PackageSource ex_Stat
           "/go/src/proj/pkg" (ex_saver broken_reader) "proj/pkg" ∅
           (errorString "exit status 2"));
    [reflexivity | reflexivity | discriminate | reflexivity | reflexivity].
Defined.

(** A path that is a file is recorded with an error and skipped. *)
Lemma file_is_skipped_witness :
  exists e,
    stat_error (fun _ => StatInfo false) "/go/src/proj/main.go" = Some e /\
    SavePackageDeps ex_PackageName ex_PackageSource (fun _ => StatInfo false)
      "/go/src/proj/main.go" (ex_saver no_go_files) =
      (Some ErrorSkip,
       set_deps (ex_saver no_go_files)
         (AddDependency (deps (ex_saver no_go_files))
            (set_Err (NewDependency "proj/main.go") e))).
Proof.
  apply (stat_failure_is_skipped ex_PackageName ex_PackageSource
           (fun _ => StatInfo false) "/go/src/proj/main.go"
           (ex_saver no_go_files) "proj/main.go");
    [reflexivity | discriminate].
Defined.

(** A directory without Go files leaves no record and no error. *)
Example no_go_files_is_not_recorded :
  SavePackageDeps ex_PackageName ex_PackageSource ex_Stat
    "/go/src/proj/docs" (ex_saver no_go_files) =
  (None, ex_saver no_go_files).
Proof. reflexivity. Qed.

(** * Properties of the fetch and update driver *)

Section LoaderFacts.
Context {World : Type}.
Variable PackageSource : string -> string -> string.
Variable PathIsChild : string -> string -> bool.
Variable Stat : World -> string -> StatResult.
Variable Create : VCS -> string -> World -> option error * World.

(** C9: when [os.Stat] fails on the package's path with an error other
    than does-not-exist, [FetchUpdatePackage] goes straight to reading the
    dependencies at that path, on the disk as it was (nothing was resolved
    or created before); the error it returns is the read's, if any, and
    never one made from the failed stat. *)
Theorem C9_stat_failure_is_dropped pkg (dl : DependencyLoader World) w e
    pdeps rerr w' :
  let path := PackageSource (lgopath dl) pkg in
  Stat w path = StatFail e ->
  readDeps dl path w = ((pdeps, rerr), w') ->
  FetchUpdatePackage PackageSource PathIsChild Stat Create pkg dl w =
  match rerr with
  | Some re =>
      (Some (errorString ("package " +:+ pkg +:+ " couldn't read deps "
                          +:+ Error re)), dl, w')
  | None => (None, set_ldeps dl (record_deps (ldeps dl) pkg pdeps), w')
  end.
Proof.
  intros path Hst Hr. unfold FetchUpdatePackage. fold path.
  rewrite Hst. unfold load_deps. rewrite Hr.
  destruct rerr; reflexivity.
Qed.
(** When the package's path is a file, [FetchUpdatePackage] returns an
    error that names the path, and fetches and reads nothing. *)
Theorem file_is_not_a_package pkg (dl : DependencyLoader World) w :
  let path := PackageSource (lgopath dl) pkg in
  Stat w path = StatInfo false ->
  FetchUpdatePackage PackageSource PathIsChild Stat Create pkg dl w =
  (Some (errorString ("cant fetch pkg for path " +:+ path +:+
                      " is a file not a directory")), dl, w).
Proof.
  intros path Hst. unfold FetchUpdatePackage. fold path. by rewrite Hst.
Qed.
End LoaderFacts.

(** On the logging disk a failed stat leads to one read and no fetch. *)
Lemma C9_logged_witness :
  FetchUpdatePackage ex_PackageSource ex_PathIsChild ex_logged_Stat
    ex_logged_Create "example.org/repo/pkg" ex_loader [] =
  (None,
   set_ldeps ex_loader (record_deps (ldeps ex_loader) "example.org/repo/pkg" ∅),
   ["read /go/src/example.org/repo/pkg"]).
Proof.
  apply (C9_stat_failure_is_dropped ex_PackageSource ex_PathIsChild
           ex_logged_Stat ex_logged_Create "example.org/repo/pkg" ex_loader []
           (errorString "permission denied") ∅ None
           ["read /go/src/example.org/repo/pkg"]);
    reflexivity.
Defined.

(** Scenario 3 of the specification on the logging disk. *)
Lemma file_is_not_a_package_witness :
  FetchUpdatePackage ex_PackageSource ex_PathIsChild
    (fun _ _ => StatInfo false) ex_logged_Create "example.org/repo/pkg"
    ex_loader [] =
  (Some (errorString ("cant fetch pkg for path " +:+
                      "/go/src/example.org/repo/pkg" +:+
                      " is a file not a directory")), ex_loader, []).
Proof.
  apply (file_is_not_a_package ex_PackageSource ex_PathIsChild
           (fun _ _ => StatInfo false) ex_logged_Create
           "example.org/repo/pkg" ex_loader []).
  reflexivity.
Defined.

(** The same package on a disk where the path does not exist is fetched
    first. *)
Example missing_path_is_fetched :
  snd (FetchUpdatePackage ex_PackageSource ex_PathIsChild
         (fun _ _ => StatNotExist (errorString "no such file or directory"))
         ex_logged_Create "example.org/repo/pkg" ex_loader []) =
  ["create"; "read /go/src/example.org/repo/pkg"].
Proof. reflexivity. Qed.

(** * Properties of the source resolver *)

Section ResolveFacts.
Variable PackageSource : string -> string -> string.
Variable PathIsChild : string -> string -> bool.
Variable sr : SourcesResolver.

Local Abbreviation under' := (under PathIsChild).
Local Abbreviation DepSource' := (DepSource PathIsChild).
Local Abbreviation at_save_level' := (at_save_level PackageSource PathIsChild sr).
Local Abbreviation continues' := (continues PackageSource PathIsChild sr).
Local Abbreviation resolve_dep' := (resolve_dep PackageSource PathIsChild sr).
Local Abbreviation resolve_loop' := (resolve_loop PackageSource PathIsChild sr).
Local Abbreviation ResolveSources' :=
  (ResolveSources PackageSource PathIsChild sr).

Lemma resolve_dep_Continue sources dep sources' :
  resolve_dep' sources dep = Continue sources' ->
  continues' sources dep sources'.
Proof.
  unfold resolve_dep.
  destruct (DepSource' sources dep) as [[i source]|] eqn:Hfind.
  { intros [= <-]. by constructor. }
  destruct (Resolver sr (ImportPath dep) None) as [vcs|e] eqn:Hres.
  2:{ intros [= <-]. constructor; [done|]. intros vcs Hv. congruence. }
  destruct (at_save_level' (GetRoot vcs)) eqn:Hlevel.
  { intros [= <-]. constructor; [done|]. intros vcs' Hv. congruence. }
  destruct (on_disk_revision sr vcs) as [rev [e|]] eqn:Hrev; [done|].
  destruct (GetSource vcs) as [vcsSource [e|]] eqn:Hsrc; [done|].
  intros [= <-]. by econstructor.
Qed.

Lemma resolve_loop_cons dep order sources :
  resolve_loop' (dep :: order) sources =
  match resolve_dep' sources dep with
  | Continue sources' => resolve_loop' order sources'
  | Abort e => (None, Some e)
  end.
Proof. reflexivity. Qed.

Lemma resolve_loop_app pre order sources mid :
  resolve_loop' pre sources = (Some mid, None) ->
  resolve_loop' (pre ++ order) sources = resolve_loop' order mid.
Proof.
  revert sources. induction pre as [|dep pre IH]; intros sources; simpl.
  - by intros [= <-].
  - destruct (resolve_dep' sources dep); [apply IH | done].
Qed.

(** A source in an updated slice has the root of a source that was there. *)
Lemma insert_same_root (sources : DependencySources) i source dep j s' :
  sources !! i = Some source ->
  <[i := source_add_dep source dep]> sources !! j = Some s' ->
  exists s, sources !! j = Some s /\ Root s = Root s'.
Proof.
  intros Hi Hj. apply list_lookup_insert_Some in Hj as [(-> & <- & _)|[_ Hj]].
  - by exists source.
  - by exists s'.
Qed.

Lemma continues_save_level sources dep sources' :
  continues' sources dep sources' ->
  Forall (fun source => at_save_level' (Root source) = false) sources ->
  Forall (fun source => at_save_level' (Root source) = false) sources'.
Proof.
  intros Hc Hall. destruct Hc as [i source Hfind| |vcs rev vcsSource].
  - apply list_find_Some in Hfind as (Hi & _ & _).
    apply Forall_lookup. intros j s' Hj.
    destruct (insert_same_root _ _ _ _ _ _ Hi Hj) as (s & Hs & <-).
    by eapply (Forall_lookup_1 _ _ _ _ Hall).
  - done.
  - apply Forall_app. split; [done|]. by constructor.
Qed.

Lemma resolve_loop_save_level order sources final :
  Forall (fun source => at_save_level' (Root source) = false) sources ->
  resolve_loop' order sources = (Some final, None) ->
  Forall (fun source => at_save_level' (Root source) = false) final.
Proof.
  revert sources. induction order as [|dep order IH]; intros sources Hall.
  - by intros [= <-].
  - rewrite resolve_loop_cons.
    destruct (resolve_dep' sources dep) as [sources'|e] eqn:Hstep; [|done].
    apply IH. eapply continues_save_level; [|done].
    by apply resolve_dep_Continue.
Qed.

Lemma insert_same_roots (sources : DependencySources) i source dep :
  sources !! i = Some source ->
  Root <$> <[i := source_add_dep source dep]> sources = Root <$> sources.
Proof.
  intros Hi. rewrite list_fmap_insert. apply list_insert_id.
  by rewrite list_lookup_fmap, Hi.
Qed.

(** C4: every source a successful pass returns has a root whose place on
    disk is not the save root and not a parent of it; and a dependency whose
    repository is at the save root or above adds no source: the roots of the
    sources stay as they were, and the sources themselves do when none of
    them holds the import path already. *)
Theorem C4_no_source_at_save_level order sources :
  ResolveSources PackageSource PathIsChild sr order = (Some sources, None) ->
  (forall source, source ∈ sources ->
     PackageSource (Gopath sr) (Root source) <> RootPath sr /\
     PathIsChild (PackageSource (Gopath sr) (Root source)) (RootPath sr)
       = false) /\
  (forall srcs dep vcs,
     Resolver sr (ImportPath dep) None = inl vcs ->
     (PackageSource (Gopath sr) (GetRoot vcs) = RootPath sr \/
      PathIsChild (PackageSource (Gopath sr) (GetRoot vcs)) (RootPath sr)
        = true) ->
     exists srcs',
       resolve_dep PackageSource PathIsChild sr srcs dep = Continue srcs' /\
       Root <$> srcs' = Root <$> srcs /\
       (DepSource PathIsChild srcs dep = None -> srcs' = srcs)).
Proof.
  intros Hrun. split.
  - intros source Hin.
    assert (Hall : Forall (fun s => at_save_level' (Root s) = false) sources).
    { eapply resolve_loop_save_level; [|exact Hrun]. constructor. }
    rewrite Forall_forall in Hall. specialize (Hall _ Hin).
    unfold at_save_level in Hall. apply orb_false_iff in Hall as [Heq Hchild].
    split; [by apply String.eqb_neq | done].
  - intros srcs dep vcs Hres Hlevel. unfold resolve_dep.
    destruct (DepSource' srcs dep) as [[i source]|] eqn:Hfind.
    + exists (<[i := source_add_dep source dep]> srcs).
      split; [done|]. split; [|done].
      apply list_find_Some in Hfind as (Hi & _ & _).
      by apply insert_same_roots.
    + exists srcs. rewrite Hres.
      assert (at_save_level' (GetRoot vcs) = true) as ->; [|done].
      unfold at_save_level. apply orb_true_iff.
      destruct Hlevel as [Heq|Hchild]; [left | by right].
      by apply String.eqb_eq.
Qed.

Lemma on_disk_revision_GetRev vcs :
  Branches sr = false \/ snd (GetBranch vcs) <> None ->
  on_disk_revision sr vcs = GetRev vcs.
Proof.
  unfold on_disk_revision. intros [Hb|Hbranch].
  - by rewrite Hb.
  - destruct (Branches sr); [|done].
    destruct (GetBranch vcs) as [rev err]; simpl in *.
    by rewrite bool_decide_eq_true_2.
Qed.

(** C8: in a pass that got as far as [dep] with the sources [sources],
    none of which holds [dep]: if the repository of [dep] cannot be
    resolved the pass goes on with the same sources; if it is resolved to
    a repository outside the save root and [GetRev] is called (branches
    are not asked for, or the branch is unknown) and fails, or the revision
    is known and [GetSource] fails, the pass returns no sources and an
    error that has the root and the text of the failure. *)
Theorem C8_resolver_failures pre dep rest sources :
  ResolveSources PackageSource PathIsChild sr pre = (Some sources, None) ->
  DepSource PathIsChild sources dep = None ->
  (forall e, Resolver sr (ImportPath dep) None = inr e ->
     ResolveSources PackageSource PathIsChild sr (pre ++ dep :: rest) =
     resolve_loop PackageSource PathIsChild sr rest sources) /\
  (forall vcs,
     Resolver sr (ImportPath dep) None = inl vcs ->
     at_save_level PackageSource PathIsChild sr (GetRoot vcs) = false ->
     (forall rev e,
        Branches sr = false \/ snd (GetBranch vcs) <> None ->
        GetRev vcs = (rev, Some e) ->
        ResolveSources PackageSource PathIsChild sr (pre ++ dep :: rest) =
        (None, Some (errorString ("cant get revision from vcs at " +:+
                                  GetRoot vcs +:+ " " +:+ Error e)))) /\
     (forall rev vcsSource e,
        on_disk_revision sr vcs = (rev, None) ->
        GetSource vcs = (vcsSource, Some e) ->
        ResolveSources PackageSource PathIsChild sr (pre ++ dep :: rest) =
        (None, Some (errorString ("cant get vcs source from vcs at " +:+
                                  GetRoot vcs +:+ " " +:+ Error e))))).
Proof.
  intros Hpre Hfind. unfold ResolveSources in *.
  rewrite (resolve_loop_app pre (dep :: rest) [] sources Hpre).
  rewrite resolve_loop_cons. unfold resolve_dep. rewrite Hfind.
  split; [|intros vcs Hres Hlevel; split].
  - intros e Hres. by rewrite Hres.
  - intros rev e Hasked Hrev. rewrite Hres, Hlevel.
    by rewrite (on_disk_revision_GetRev vcs Hasked), Hrev.
  - intros rev vcsSource e Hrev Hsrc.
    by rewrite Hres, Hlevel, Hrev, Hsrc.
Qed.
End ResolveFacts.

(** ** One source for the dependencies of one repository *)

Section OneSourcePerRoot.
Variable PackageSource : string -> string -> string.
Variable PathIsChild : string -> string -> bool.
Variable sr : SourcesResolver.
Variable order : list Dependency.
Variable r : string.

Local Abbreviation under' := (under PathIsChild).
Local Abbreviation DepSource' := (DepSource PathIsChild).
Local Abbreviation at_save_level' := (at_save_level PackageSource PathIsChild sr).
Local Abbreviation continues' := (continues PackageSource PathIsChild sr).
Local Abbreviation resolve_loop' := (resolve_loop PackageSource PathIsChild sr).
Local Abbreviation resolves_to' := (resolves_to sr r).
Local Abbreviation only_root_over' := (only_root_over PathIsChild sr order r).
Local Abbreviation held' := (held PathIsChild sr order r).
Local Abbreviation held_roots' := (held_roots PathIsChild sr order r).
Local Abbreviation held_deps' := (held_deps PathIsChild sr order r).
Local Abbreviation held_once' := (held_once PathIsChild sr order r).
Local Abbreviation held_in' := (held_in PathIsChild sr order r).

Hypothesis order_NoDup : NoDup (ImportPath <$> order).
Hypothesis r_outside : at_save_level' r = false.
Hypothesis r_over_its_own :
  forall dep, dep ∈ order -> resolves_to' dep -> under' r (ImportPath dep) = true.

Lemma held_nil : held' [] [].
Proof.
  split.
  - intros s Hs. by apply elem_of_nil in Hs.
  - intros s k dep Hs. by apply elem_of_nil in Hs.
  - intros i j s s' Hi. by rewrite lookup_nil in Hi.
  - intros t Ht. by apply elem_of_nil in Ht.
Qed.

Lemma order_split_fresh processed dep rest d :
  processed ++ dep :: rest = order ->
  d ∈ processed -> ImportPath d <> ImportPath dep.
Proof.
  intros Hsplit Hd Heq. pose proof order_NoDup as Hnd.
  rewrite <- Hsplit, fmap_app, fmap_cons in Hnd.
  apply NoDup_app in Hnd as (_ & Hdisj & _).
  apply (Hdisj (ImportPath d)).
  - by apply list_elem_of_fmap_2.
  - rewrite Heq. apply list_elem_of_here.
Qed.

Lemma order_split_elem processed dep rest d :
  processed ++ dep :: rest = order ->
  d ∈ processed ++ [dep] -> d ∈ order.
Proof.
  intros <- Hd. apply elem_of_app in Hd as [Hd|Hd]; apply elem_of_app.
  - by left.
  - right. apply list_elem_of_singleton in Hd as ->. apply list_elem_of_here.
Qed.

(** A dependency that no source holds yet keeps its own record when it is
    added. *)
Lemma held_add_fresh processed dep rest sources s :
  processed ++ dep :: rest = order ->
  held' processed sources ->
  s ∈ sources ->
  AddDependency (Deps s) dep = <[ImportPath dep := dep]> (Deps s).
Proof.
  intros Hsplit Hheld Hs. unfold AddDependency.
  destruct (Deps s !! ImportPath dep) as [prev|] eqn:Hprev; [|done].
  destruct (held_deps' _ _ Hheld s _ _ Hs Hprev) as [Hin Hpath].
  by destruct (order_split_fresh processed dep rest prev Hsplit Hin).
Qed.

Lemma held_found processed dep rest sources i source :
  processed ++ dep :: rest = order ->
  held' processed sources ->
  DepSource' sources dep = Some (i, source) ->
  held' (processed ++ [dep]) (<[i := source_add_dep source dep]> sources).
Proof.
  intros Hsplit Hheld Hfind.
  apply list_find_Some in Hfind as (Hi & Hover & _).
  assert (Hs : source ∈ sources) by (by eapply list_elem_of_lookup_2).
  pose proof (held_add_fresh _ _ _ _ _ Hsplit Hheld Hs) as Hadd.
  assert (Hnew : source_add_dep source dep
                 ∈ <[i := source_add_dep source dep]> sources).
  { apply list_elem_of_insert. by eapply lookup_lt_Some. }
  split.
  - intros s' [j Hj]%list_elem_of_lookup.
    destruct (insert_same_root _ _ _ _ _ _ Hi Hj) as (s0 & Hs0 & <-).
    apply list_elem_of_lookup_2 in Hs0.
    destruct (held_roots' _ _ Hheld s0 Hs0) as (d & vcs & Hd & Hres & Hroot).
    exists d, vcs. split; [apply elem_of_app; by left | done].
  - intros s' k d [j Hj]%list_elem_of_lookup Hk.
    apply list_lookup_insert_Some in Hj as [(-> & <- & _)|[_ Hj]].
    + simpl in Hk. rewrite Hadd in Hk.
      apply lookup_insert_Some in Hk as [[<- <-]|[_ Hk]].
      * split; [|done]. apply elem_of_app. right. apply list_elem_of_here.
      * destruct (held_deps' _ _ Hheld source k d Hs Hk) as [Hd Hpath].
        split; [apply elem_of_app; by left | done].
    + apply list_elem_of_lookup_2 in Hj.
      destruct (held_deps' _ _ Hheld s' k d Hj Hk) as [Hd Hpath].
      split; [apply elem_of_app; by left | done].
  - intros j1 j2 s1 s2 H1 H2 Hr1 Hr2.
    destruct (insert_same_root _ _ _ _ _ _ Hi H1) as (t1 & Ht1 & Hroot1).
    destruct (insert_same_root _ _ _ _ _ _ Hi H2) as (t2 & Ht2 & Hroot2).
    apply (held_once' _ _ Hheld j1 j2 t1 t2 Ht1 Ht2); congruence.
  - intros t [Ht| ->%list_elem_of_singleton]%elem_of_app Hres Honly.
    + destruct (held_in' _ _ Hheld t Ht Hres Honly) as (s & Hs_in & Hroot & Hdeps).
      apply list_elem_of_lookup in Hs_in as [j Hj].
      destruct (decide (j = i)) as [->|Hne].
      * assert (s = source) as -> by congruence.
        exists (source_add_dep source dep). split; [done|]. split; [done|].
        simpl. rewrite Hadd, lookup_insert_ne; [done|].
        intros Heq. by apply (order_split_fresh _ _ _ t Hsplit Ht).
      * exists s. split; [|done]. apply list_elem_of_lookup. exists j.
        by rewrite list_lookup_insert_ne.
    + exists (source_add_dep source dep). split; [done|]. split.
      * destruct (held_roots' _ _ Hheld source Hs) as (d & vcs & Hd & Hresd & Hroot).
        simpl. rewrite Hroot. apply (Honly d vcs); [|done|by rewrite <- Hroot].
        apply (order_split_elem processed dep rest d Hsplit).
        apply elem_of_app. by left.
      * simpl. rewrite Hadd. apply lookup_insert_eq.
Qed.

Lemma held_skipped processed dep rest sources :
  processed ++ dep :: rest = order ->
  held' processed sources ->
  (forall vcs, Resolver sr (ImportPath dep) None = inl vcs ->
               at_save_level' (GetRoot vcs) = true) ->
  held' (processed ++ [dep]) sources.
Proof.
  intros Hsplit Hheld Hskip. split.
  - intros s Hs.
    destruct (held_roots' _ _ Hheld s Hs) as (d & vcs & Hd & Hres & Hroot).
    exists d, vcs. split; [apply elem_of_app; by left | done].
  - intros s k d Hs Hk.
    destruct (held_deps' _ _ Hheld s k d Hs Hk) as [Hd Hpath].
    split; [apply elem_of_app; by left | done].
  - apply (held_once' _ _ Hheld).
  - intros t [Ht| ->%list_elem_of_singleton]%elem_of_app Hres Honly.
    + by apply (held_in' _ _ Hheld).
    + destruct Hres as (vcs & Hres & Hroot).
      specialize (Hskip vcs Hres). rewrite Hroot, r_outside in Hskip. done.
Qed.

Lemma held_added processed dep rest sources vcs rev vcsSource :
  processed ++ dep :: rest = order ->
  held' processed sources ->
  DepSource' sources dep = None ->
  Resolver sr (ImportPath dep) None = inl vcs ->
  held' (processed ++ [dep])
    (sources ++
     [fill_source (NewDependencySource (GetRoot vcs)) rev vcsSource dep]).
Proof.
  intros Hsplit Hheld Hfind Hres.
  set (new := fill_source (NewDependencySource (GetRoot vcs)) rev vcsSource dep).
  assert (Hdeps : Deps new = <[ImportPath dep := dep]> ∅) by done.
  assert (Hlast : dep ∈ processed ++ [dep]).
  { apply elem_of_app. right. apply list_elem_of_here. }
  assert (Hnone : forall s, s ∈ sources -> Root s = r -> GetRoot vcs = r -> False).
  { intros s Hs Hroot Hvcs.
    apply list_find_None in Hfind. rewrite Forall_forall in Hfind.
    apply (Hfind s Hs). rewrite Hroot. apply r_over_its_own.
    - by apply (order_split_elem processed dep rest dep Hsplit).
    - by exists vcs. }
  split.
  - intros s [Hs| ->%list_elem_of_singleton]%elem_of_app.
    + destruct (held_roots' _ _ Hheld s Hs) as (d & v & Hd & Hresd & Hroot).
      exists d, v. split; [apply elem_of_app; by left | done].
    + by exists dep, vcs.
  - intros s k d [Hs| ->%list_elem_of_singleton]%elem_of_app Hk.
    + destruct (held_deps' _ _ Hheld s k d Hs Hk) as [Hd Hpath].
      split; [apply elem_of_app; by left | done].
    + rewrite Hdeps in Hk.
      apply lookup_insert_Some in Hk as [[<- <-]|[_ Hk]]; [done|].
      by rewrite lookup_empty in Hk.
  - intros i j s s' Hi Hj Hr Hr'.
    apply lookup_app_Some in Hi as [Hi|[Hi Hi']];
      apply lookup_app_Some in Hj as [Hj|[Hj Hj']].
    + by apply (held_once' _ _ Hheld i j s s').
    + apply list_lookup_singleton_Some in Hj' as [_ <-].
      destruct (Hnone s); [by eapply list_elem_of_lookup_2 | done | done].
    + apply list_lookup_singleton_Some in Hi' as [_ <-].
      destruct (Hnone s'); [by eapply list_elem_of_lookup_2 | done | done].
    + apply list_lookup_singleton_Some in Hi' as [Hi' _].
      apply list_lookup_singleton_Some in Hj' as [Hj' _]. lia.
  - intros t [Ht| ->%list_elem_of_singleton]%elem_of_app Hrest Honly.
    + destruct (held_in' _ _ Hheld t Ht Hrest Honly) as (s & Hs & Hroot & Hd).
      exists s. split; [apply elem_of_app; by left | done].
    + exists new. split; [apply elem_of_app; right; apply list_elem_of_here|].
      destruct Hrest as (v & Hv & Hroot).
      split; [simpl; congruence|].
      rewrite Hdeps. apply lookup_insert_eq.
Qed.

Lemma continues_held processed dep rest sources sources' :
  processed ++ dep :: rest = order ->
  held' processed sources ->
  continues' sources dep sources' ->
  held' (processed ++ [dep]) sources'.
Proof.
  intros Hsplit Hheld Hc. destruct Hc.
  - by eapply held_found.
  - by eapply held_skipped.
  - by eapply held_added.
Qed.

Lemma resolve_loop_held rest processed sources final :
  processed ++ rest = order ->
  held' processed sources ->
  resolve_loop' rest sources = (Some final, None) ->
  held' order final.
Proof.
  revert processed sources.
  induction rest as [|dep rest IH]; intros processed sources Hsplit Hheld.
  - intros [= <-]. by rewrite app_nil_r in Hsplit; subst.
  - rewrite resolve_loop_cons.
    destruct (resolve_dep PackageSource PathIsChild sr sources dep)
      as [sources'|e] eqn:Hstep; [|done].
    apply (IH (processed ++ [dep])).
    + by rewrite <- app_assoc.
    + eapply continues_held; [done..|]. by apply resolve_dep_Continue.
Qed.

Lemma one_source_in_order dep1 dep2 sources :
  dep1 ∈ order -> dep2 ∈ order ->
  resolves_to sr r dep1 -> resolves_to sr r dep2 ->
  only_root_over PathIsChild sr order r dep1 ->
  only_root_over PathIsChild sr order r dep2 ->
  ResolveSources PackageSource PathIsChild sr order = (Some sources, None) ->
  exists i source,
    sources !! i = Some source /\
    Root source = r /\
    Deps source !! ImportPath dep1 = Some dep1 /\
    Deps source !! ImportPath dep2 = Some dep2 /\
    (forall j s, sources !! j = Some s -> Root s = r -> j = i).
Proof.
  intros Hin1 Hin2 Hres1 Hres2 Honly1 Honly2 Hrun.
  assert (Hheld : held' order sources).
  { apply (resolve_loop_held order [] [] sources); [done | | done].
    apply held_nil. }
  destruct (held_in' _ _ Hheld dep1 Hin1 Hres1 Honly1) as (s1 & Hs1 & Hr1 & Hd1).
  destruct (held_in' _ _ Hheld dep2 Hin2 Hres2 Honly2) as (s2 & Hs2 & Hr2 & Hd2).
  apply list_elem_of_lookup in Hs1 as [i Hi].
  apply list_elem_of_lookup in Hs2 as [j Hj].
  assert (j = i) as -> by (by apply (held_once' _ _ Hheld j i s2 s1)).
  assert (s2 = s1) as -> by congruence.
  exists i, s1. repeat split; try done.
  intros k s Hk Hr. by apply (held_once' _ _ Hheld k i s s1).
Qed.
End OneSourcePerRoot.

Lemma range_of_elem (d : Dependencies) order k dep :
  range_of d order -> d !! k = Some dep -> dep ∈ order.
Proof.
  unfold range_of. intros -> Hk. apply list_elem_of_fmap.
  exists (k, dep). split; [done|]. by apply elem_of_map_to_list.
Qed.

Lemma range_of_NoDup (d : Dependencies) order :
  keyed d -> range_of d order -> NoDup (ImportPath <$> order).
Proof.
  unfold range_of. intros Hkeyed ->.
  assert (ImportPath <$> (map_to_list d).*2 = (map_to_list d).*1) as ->.
  { rewrite <- list_fmap_compose. apply list_fmap_ext.
    intros i [k dep] Hi. simpl. apply Hkeyed.
    apply elem_of_map_to_list. by eapply list_elem_of_lookup_2. }
  apply NoDup_fst_map_to_list.
Qed.

(** C5, as the code has it: [dep1] and [dep2] are dependencies of the graph
    [d], which [range] yields in the order [order]; their repositories are
    found and have the root [r], outside the save root.  If the pass
    succeeds, every dependency of the graph with a repository of root [r]
    has its import path under [r], and no dependency of the graph has a
    repository of another root that the import path of [dep1] or of [dep2]
    is under, then exactly one of the returned sources has the root [r], and
    its [Deps] holds [dep1] and [dep2]. *)
Theorem C5_one_source_for_one_root PackageSource PathIsChild sr
    (d : Dependencies) order r dep1 dep2 sources :
  keyed d ->
  range_of d order ->
  d !! ImportPath dep1 = Some dep1 ->
  d !! ImportPath dep2 = Some dep2 ->
  resolves_to sr r dep1 ->
  resolves_to sr r dep2 ->
  at_save_level PackageSource PathIsChild sr r = false ->
  ResolveSources PackageSource PathIsChild sr order = (Some sources, None) ->
  (forall dep, dep ∈ order -> resolves_to sr r dep ->
     under PathIsChild r (ImportPath dep) = true) ->
  only_root_over PathIsChild sr order r dep1 ->
  only_root_over PathIsChild sr order r dep2 ->
  exists i source,
    sources !! i = Some source /\
    Root source = r /\
    Deps source !! ImportPath dep1 = Some dep1 /\
    Deps source !! ImportPath dep2 = Some dep2 /\
    (forall j s, sources !! j = Some s -> Root s = r -> j = i).
Proof.
  intros Hkeyed Hrange Hd1 Hd2 Hres1 Hres2 Hout Hrun Hown Honly1 Honly2.
  apply (one_source_in_order PackageSource PathIsChild sr order r);
    eauto using range_of_NoDup, range_of_elem.
Qed.

(** The project's own package and a repository that wraps the save root add
    no source; [example.org/repo] is outside of it. *)
Lemma C4_own_repository_witness :
  let sr := ex_resolver ex_table false in
  let sources :=
    sources_of (ResolveSources ex_PackageSource ex_PathIsChild sr
                  [cmd; sub1; lost; sub2]) in
  Root <$> sources = ["example.org/repo"] /\
  (forall source, source ∈ sources ->
     ex_PackageSource (Gopath sr) (Root source) <> RootPath sr /\
     ex_PathIsChild (ex_PackageSource (Gopath sr) (Root source)) (RootPath sr)
       = false) /\
  (exists srcs',
     resolve_dep ex_PackageSource ex_PathIsChild sr sources cmd
       = Continue srcs' /\
     Root <$> srcs' = Root <$> sources /\
     (DepSource ex_PathIsChild sources cmd = None -> srcs' = sources)).
Proof.
  intros sr sources.
  destruct (C4_no_source_at_save_level ex_PackageSource ex_PathIsChild sr
              [cmd; sub1; lost; sub2] sources) as [Hall Hskip].
  { vm_compute. reflexivity. }
  split; [vm_compute; reflexivity|]. split; [exact Hall|].
  apply (Hskip sources cmd (vcs_at "example.com/proj")).
  - reflexivity.
  - left. reflexivity.
Defined.

(** Against C5 as the specification has it: [example.org/repo/sub1] and
    [example.org/repo/sub2] have the repository root [example.org/repo],
    which is outside the save root, but [example.org/tools], of the
    enclosing checkout [example.org], comes first.  The pass succeeds with
    one source, rooted at [example.org], that holds all three; no source is
    rooted at [example.org/repo]. *)
Lemma C5_counterexample :
  let sr := ex_resolver nested_table false in
  let out := ResolveSources ex_PackageSource ex_PathIsChild sr
               [tools; sub1; sub2] in
  Resolver sr (ImportPath sub1) None = inl (vcs_at "example.org/repo") /\
  Resolver sr (ImportPath sub2) None = inl (vcs_at "example.org/repo") /\
  under ex_PathIsChild "example.org/repo" (ImportPath sub1) = true /\
  under ex_PathIsChild "example.org/repo" (ImportPath sub2) = true /\
  at_save_level ex_PackageSource ex_PathIsChild sr "example.org/repo" = false /\
  snd out = None /\
  Root <$> sources_of out = ["example.org"] /\
  (fun source => size (Deps source)) <$> sources_of out = [3].
Proof. vm_compute. repeat split; reflexivity. Qed.

Lemma ex_graph_records : (map_to_list ex_graph).*2 = [sub1; sub2; lost; cmd].
Proof. vm_compute. reflexivity. Qed.

Lemma ex_graph_keyed : keyed ex_graph.
Proof.
  intros k dep Hk.
  assert (Hlist : (k, dep) ∈ map_to_list ex_graph)
    by (by apply elem_of_map_to_list).
  assert (Hall : Forall (fun kd => ImportPath (snd kd) = fst kd)
                   (map_to_list ex_graph)).
  { vm_compute. repeat constructor. }
  rewrite Forall_forall in Hall. apply (Hall (k, dep) Hlist).
Qed.

(** Two packages of [example.org/repo], among others, end in one source. *)
Lemma C5_two_packages_witness :
  let sr := ex_resolver ex_table false in
  let sources :=
    sources_of (ResolveSources ex_PackageSource ex_PathIsChild sr
                  [cmd; sub1; lost; sub2]) in
  exists i source,
    sources !! i = Some source /\
    Root source = "example.org/repo" /\
    Deps source !! "example.org/repo/sub1" = Some sub1 /\
    Deps source !! "example.org/repo/sub2" = Some sub2 /\
    (forall j s, sources !! j = Some s -> Root s = "example.org/repo" -> j = i).
Proof.
  intros sr sources.
  apply (C5_one_source_for_one_root ex_PackageSource ex_PathIsChild sr
           ex_graph [cmd; sub1; lost; sub2] "example.org/repo" sub1 sub2).
  - exact ex_graph_keyed.
  - unfold range_of. rewrite ex_graph_records. solve_Permutation.
  - vm_compute. reflexivity.
  - vm_compute. reflexivity.
  - by exists (vcs_at "example.org/repo").
  - by exists (vcs_at "example.org/repo").
  - reflexivity.
  - vm_compute. reflexivity.
  - intros dep Hin (vcs & Hres & Hroot).
    each_member Hin; first [reflexivity | vm_compute in Hres; congruence
                           | injection Hres as <-; discriminate Hroot].
  - intros dep vcs Hin Hres Hover.
    each_member Hin; vm_compute in Hres; first [congruence
      | injection Hres as <-; first [reflexivity | discriminate Hover]].
  - intros dep vcs Hin Hres Hover.
    each_member Hin; vm_compute in Hres; first [congruence
      | injection Hres as <-; first [reflexivity | discriminate Hover]].
Defined.

(** Scenario 4 of the specification, in both orders. *)
Example two_packages_one_source :
  let pass order :=
    sources_of (ResolveSources ex_PackageSource ex_PathIsChild
                  (ex_resolver ex_table false) order) in
  Root <$> pass [sub1; sub2] = ["example.org/repo"] /\
  Root <$> pass [sub2; sub1] = ["example.org/repo"] /\
  (fun source => size (Deps source)) <$> pass [sub1; sub2] = [2] /\
  (fun source => elements (Revisions source)) <$> pass [sub1; sub2]
    = [["abc123"]].
Proof. vm_compute. repeat split; reflexivity. Qed.

(** [example.org/lost] has no repository and is passed over; the revision
    of [example.org/repo] cannot be told, and the pass ends there. *)
Lemma C8_lost_revision_witness :
  let sr := ex_resolver
              [("example.org/repo/sub1", vcs_without_rev "example.org/repo")]
              true in
  let pass := ResolveSources ex_PackageSource ex_PathIsChild sr in
  pass [lost; sub1; sub2] =
    resolve_loop ex_PackageSource ex_PathIsChild sr [sub1; sub2] [] /\
  pass [lost; sub1; sub2] =
    (None, Some (errorString
       "cant get revision from vcs at example.org/repo exit status 128")).
Proof.
  intros sr pass. split.
  - destruct (C8_resolver_failures ex_PackageSource ex_PathIsChild sr
                [] lost [sub1; sub2] []) as [Hlost _];
      [reflexivity | reflexivity |].
    apply (Hlost (errorString "no repository for example.org/lost")).
    reflexivity.
  - destruct (C8_resolver_failures ex_PackageSource ex_PathIsChild sr
                [lost] sub1 [sub2] []) as [_ Hvcs];
      [reflexivity | reflexivity |].
    destruct (Hvcs (vcs_without_rev "example.org/repo")) as [Hrev _];
      [reflexivity | reflexivity |].
    apply (Hrev "" (errorString "exit status 128")).
    + right. discriminate.
    + reflexivity.
Defined.

(** A failing [GetSource] ends the pass as well. *)
Example lost_remote_aborts :
  ResolveSources ex_PackageSource ex_PathIsChild
    (ex_resolver
       [("example.org/repo/sub1",
         mkVCS "example.org/repo" ("master", None) ("abc123", None)
           ("", Some (errorString "no remote")))] false)
    [sub1; sub2] =
  (None, Some (errorString
     "cant get vcs source from vcs at example.org/repo no remote")).
Proof. vm_compute. reflexivity. Qed.

(** * Properties of package.go *)

Lemma Split_no_sep s sep : has_byte sep s = false -> Split s sep = [s].
Proof.
  induction s as [|c s IH]; simpl; [done|].
  intros [Hc Hs]%orb_false_iff. rewrite Hc, (IH Hs). done.
Qed.

Lemma Split_first s sep rest :
  has_byte sep s = false ->
  Split (s +:+ String sep rest) sep = s :: Split rest sep.
Proof.
  induction s as [|c s IH]; simpl.
  - intros _. by rewrite Ascii.eqb_refl.
  - intros [Hc Hs]%orb_false_iff. rewrite Hc, (IH Hs). done.
Qed.

Lemma Split_nonempty s sep : Split s sep <> [].
Proof.
  destruct s as [|c s]; simpl; [done|].
  destruct (Ascii.eqb c sep); [done|]. by destruct (Split s sep).
Qed.

(** A string with the byte [sep] falls into what is before the first one
    and what is after it. *)
Lemma has_byte_first s sep :
  has_byte sep s = true ->
  exists before rest,
    s = before +:+ String sep rest /\ has_byte sep before = false.
Proof.
  induction s as [|c s IH]; simpl; [done|].
  destruct (Ascii.eqb c sep) eqn:Hc; simpl.
  - intros _. apply Ascii.eqb_eq in Hc as ->. by exists "", s.
  - intros (before & rest & -> & Hb)%IH.
    exists (String c before), rest. simpl. by rewrite Hc.
Qed.

Lemma Split_short s sep :
  Nat.ltb (length (Split s sep)) 2 = negb (has_byte sep s).
Proof.
  destruct (has_byte sep s) eqn:Hs.
  - destruct (has_byte_first s sep Hs) as (before & rest & -> & Hb).
    rewrite (Split_first _ _ _ Hb). simpl.
    pose proof (Split_nonempty rest sep). by destruct (Split rest sep).
  - by rewrite (Split_no_sep _ _ Hs).
Qed.

(** An import path is remote exactly when it is not a local import and has
    a first element, before its first [/], with a [.] in it. *)
Theorem IsRemote_iff importPath :
  IsRemote importPath = true <->
  IsLocalImport importPath = false /\
  exists host rest,
    importPath = host +:+ String "/" rest /\
    has_byte "/" host = false /\
    has_byte "." host = true.
Proof.
  unfold IsRemote. split.
  - destruct (IsLocalImport importPath); [done|].
    rewrite Split_short.
    destruct (has_byte "/" importPath) eqn:Hslash; [|done]. simpl.
    destruct (has_byte_first _ _ Hslash) as (host & rest & -> & Hhost).
    rewrite (Split_first _ _ _ Hhost). simpl. rewrite Split_short.
    destruct (has_byte "." host) eqn:Hdot; [|done].
    intros _. split; [done|]. by exists host, rest.
  - intros (-> & host & rest & -> & Hhost & Hdot).
    rewrite (Split_first _ _ _ Hhost). simpl.
    pose proof (Split_nonempty rest "/").
    destruct (Split rest "/") as [|piece pieces]; [done|]. simpl.
    by rewrite Split_short, Hdot.
Qed.

(** A path whose first element has no [.], as the packages of the standard
    library, is not remote, and neither is a path without [/]. *)
Theorem IsRemote_needs_host importPath :
  has_byte "/" importPath = false \/
  (exists host rest,
     importPath = host +:+ String "/" rest /\
     has_byte "/" host = false /\ has_byte "." host = false) ->
  IsRemote importPath = false.
Proof.
  intros Hpath. unfold IsRemote.
  destruct (IsLocalImport importPath); [done|].
  destruct Hpath as [Hslash|(host & rest & -> & Hhost & Hdot)].
  { by rewrite Split_short, Hslash. }
  rewrite (Split_first _ _ _ Hhost). simpl.
  pose proof (Split_nonempty rest "/").
  destruct (Split rest "/") as [|piece pieces]; [done|]. simpl.
  by rewrite Split_short, Hdot.
Qed.

Lemma encoding_json_is_not_remote :
  (has_byte "/" "encoding/json" = false \/
   exists host rest,
     "encoding/json" = host +:+ String "/" rest /\
     has_byte "/" host = false /\ has_byte "." host = false) /\
  IsRemote "encoding/json" = false.
Proof.
  assert (Hpath : has_byte "/" "encoding/json" = false \/
    exists host rest,
      "encoding/json" = host +:+ String "/" rest /\
      has_byte "/" host = false /\ has_byte "." host = false).
  { right. by exists "encoding", "json". }
  split; [exact Hpath|].
  exact (IsRemote_needs_host "encoding/json" Hpath).
Defined.

Example IsRemote_examples :
  IsRemote "github.com/user/repo" = true /\
  IsRemote "fmt" = false /\
  IsRemote "example.org" = false /\
  IsRemote "../example.org/x" = false /\
  IsRemote "./a.b/c" = false /\
  IsRemote "" = false.
Proof. vm_compute. repeat split. Qed.

Lemma filterStrings_loop_filter filtered strings f :
  filterStrings_loop filtered strings f =
  filtered ++ List.filter f strings.
Proof.
  revert filtered. induction strings as [|s strings IH]; intros filtered.
  - by rewrite app_nil_r.
  - simpl. rewrite IH. destruct (f s); [by rewrite <- app_assoc | done].
Qed.

Lemma filterStrings_filter strings f :
  filterStrings strings f = List.filter f strings.
Proof. apply filterStrings_loop_filter. Qed.

Lemma filterStrings_app l1 l2 f :
  filterStrings (l1 ++ l2) f = filterStrings l1 f ++ filterStrings l2 f.
Proof. rewrite !filterStrings_filter. apply List.filter_app. Qed.

(** [RemoteImports] returns the imports that are remote, and with
    [includeTest] after them the test imports that are remote, each as often
    and in the order the package lists them. *)
Theorem RemoteImports_with_tests p :
  RemoteImports p true =
    RemoteImports p false ++ filterStrings (PTestImports p) IsRemote /\
  (forall includeTest x,
     In x (RemoteImports p includeTest) <->
     IsRemote x = true /\
     (In x (PImports p) \/ includeTest = true /\ In x (PTestImports p))).
Proof.
  split; [apply filterStrings_app|].
  intros includeTest x. unfold RemoteImports.
  rewrite filterStrings_filter, List.filter_In.
  destruct includeTest; [rewrite List.in_app_iff|]; intuition discriminate.
Qed.

Section LoadPackageFacts.
Variable go_list : string -> string -> string * option error.
Variable Unmarshal : string -> Package * option error.

(** [LoadPackage] returns a package or an error and never both; a package
    it returns was decoded from the output of a command that succeeded and
    has no error of its own; and when the decoded package has an error, that
    error is what is returned, as the [*PackageError] it is. *)
Theorem LoadPackage_result pkgPath gohome :
  let out := LoadPackage go_list Unmarshal pkgPath gohome in
  (fst out = None <-> snd out <> None) /\
  (forall pkg, fst out = Some pkg ->
     PError pkg = None /\
     exists result,
       go_list pkgPath gohome = (result, None) /\
       Unmarshal result = (pkg, None)) /\
  (forall result pkg pe,
     go_list pkgPath gohome = (result, None) ->
     Unmarshal result = (pkg, None) ->
     PError pkg = Some pe ->
     out = (None, Some (PackageErrorPtr pe))).
Proof.
  unfold LoadPackage.
  destruct (go_list pkgPath gohome) as [result [e|]] eqn:Hrun; simpl.
  { split; [done|]. split; [done|]. by intros ??? [=]. }
  destruct (Unmarshal result) as [pkg [e|]] eqn:Hjson; simpl.
  { split; [done|]. split; [done|]. intros ??? [= <-] Hj. congruence. }
  destruct (PError pkg) as [pe|] eqn:Herr; simpl.
  - split; [done|]. split; [done|].
    intros ??? [= <-] Hj Hpe. congruence.
  - split; [split; [done | by intros []]|]. split.
    + intros pkg' [= <-]. split; [done|]. by exists result.
    + intros ??? [= <-] Hj Hpe. congruence.
Qed.
End LoadPackageFacts.

(** * Termination and the visited marks of the walker *)

Lemma is_visited_insert (v : gmap string bool) p c :
  is_visited (<[p := true]> v) c =
  if decide (p = c) then true else is_visited v c.
Proof.
  unfold is_visited. rewrite lookup_insert. by destruct (decide (p = c)).
Qed.

Lemma revisits_app v l1 l2 : revisits v (l1 ++ l2) = revisits v l1 + revisits v l2.
Proof. unfold revisits. by rewrite filter_app, length_app. Qed.

Lemma revisits_unvisited v l :
  revisits v (filter (fun c => is_visited v c = false) l) = 0.
Proof.
  unfold revisits. induction l as [|c l IH]; [done|].
  rewrite filter_cons. destruct (decide (is_visited v c = false)) as [Hc|Hc].
  - rewrite filter_cons, decide_False; [done|]. by rewrite Hc.
  - done.
Qed.

Lemma revisits_ext v v' l :
  (forall c, is_visited v' c = is_visited v c) -> revisits v' l = revisits v l.
Proof.
  intros Hext. unfold revisits. f_equal.
  induction l as [|c l IH]; [done|].
  rewrite !filter_cons, IH, Hext. done.
Qed.

Lemma unvisited_ext nodes v v' :
  (forall c, is_visited v' c = is_visited v c) ->
  unvisited nodes v' = unvisited nodes v.
Proof.
  intros Hext. unfold unvisited. f_equal.
  apply set_eq. intros c. rewrite !elem_of_filter, Hext. done.
Qed.

Lemma unvisited_insert nodes (v : gmap string bool) p :
  p ∈ nodes -> is_visited v p = false ->
  unvisited nodes (<[p := true]> v) < unvisited nodes v.
Proof.
  intros Hp Hv. unfold unvisited. apply subset_size. split.
  - intros c [Hc Hin]%elem_of_filter. apply elem_of_filter. split; [|done].
    rewrite is_visited_insert in Hc. by destruct (decide (p = c)).
  - intros Hsub. specialize (Hsub p).
    rewrite !elem_of_filter, is_visited_insert, decide_True in Hsub by done.
    by destruct Hsub.
Qed.

Section WalkerTermination.
Context {St : Type}.
Implicit Types (r : Run St).

(** What a pass of the loop that goes on leaves behind: the head of the
    queue is marked, the two functions are the same, and the queue is the
    rest of it followed by the unmarked ones of the sorted children of a
    read, or by nothing after a skip. *)
Lemma loop_body_Next pkg r r' :
  loop_body pkg r = (Next, r') ->
  exists p rest children,
    nodeQueue (run_dw r) = p :: rest /\
    visited (run_dw r') = <[p := true]> (visited (run_dw r)) /\
    readPackage (run_dw r') = readPackage (run_dw r) /\
    handleDep (run_dw r') = handleDep (run_dw r) /\
    nodeQueue (run_dw r') =
      rest ++ filter (fun c => is_visited (visited (run_dw r')) c = false)
                children /\
    (children = [] \/
     exists s cs s', readPackage (run_dw r) p s = ((cs, None), s') /\
                     children = sort_Strings cs).
Proof.
  unfold loop_body.
  destruct (nodeQueue (run_dw r)) as [|p rest]; [done|].
  destruct (handleDep (run_dw r) p (run_st r)) as [[e|] s1].
  - destruct (is_ErrorSkip e); [|done]. intros [= <-].
    exists p, rest, []. simpl. rewrite app_nil_r. auto 10.
  - destruct (readPackage (run_dw r) p s1) as [[cs [e|]] s2] eqn:Hread; [done|].
    intros [= <-]. exists p, rest, (sort_Strings cs). simpl.
    rewrite enqueue_filter. split_and!; try done. right. by exists s1, cs, s2.
Qed.

Lemma loop_body_Return_or_Next pkg r :
  (exists err r', loop_body pkg r = (Return err, r')) \/
  (exists r', loop_body pkg r = (Next, r')).
Proof. destruct (loop_body pkg r) as [[|err] r']; eauto. Qed.

(** The traversal ends.  If every node in the queue is one of the
    finitely many [nodes], and the reader only ever answers with nodes of
    [nodes], the loop returns for some amount of fuel, whatever the handler
    does and although a node can be in the queue more than once. *)
Theorem traversal_terminates (nodes : gset string) pkg r :
  (forall q, q ∈ nodeQueue (run_dw r) -> q ∈ nodes) ->
  (forall p s cs err s',
     readPackage (run_dw r) p s = ((cs, err), s') ->
     forall c, c ∈ cs -> c ∈ nodes) ->
  exists fuel, is_Some (loop fuel pkg r).
Proof.
  remember (unvisited nodes (visited (run_dw r))) as u eqn:Hu.
  revert r Hu. induction (lt_wf u) as [u _ IHu]. intros r Hu.
  remember (revisits (visited (run_dw r)) (nodeQueue (run_dw r))) as a eqn:Ha.
  revert r Hu Ha. induction (lt_wf a) as [a _ IHa]. intros r Hu Ha Hqueue Hreader.
  destruct (loop_body_Return_or_Next pkg r) as [(err & r' & Hbody)|[r' Hbody]].
  { exists 1. simpl. rewrite Hbody. by eexists. }
  destruct (loop_body_Next pkg r r' Hbody)
    as (p & rest & children & Hq & Hv & Hrd & Hhd & Hq' & Hchildren).
  assert (Hp : p ∈ nodes) by (apply Hqueue; rewrite Hq; apply list_elem_of_here).
  assert (Hqueue' : forall q, q ∈ nodeQueue (run_dw r') -> q ∈ nodes).
  { intros q. rewrite Hq'. intros [Hin|Hin]%elem_of_app.
    - apply Hqueue. rewrite Hq. by apply list_elem_of_further.
    - apply list_elem_of_filter in Hin as [_ Hin].
      destruct Hchildren as [->|(s & cs & s' & Hread & ->)].
      + by apply elem_of_nil in Hin.
      + apply (Hreader p s cs None s' Hread).
        by rewrite <- (sort_Strings_Permutation cs). }
  assert (Hreader' : forall p s cs err s',
            readPackage (run_dw r') p s = ((cs, err), s') ->
            forall c, c ∈ cs -> c ∈ nodes).
  { rewrite Hrd. exact Hreader. }
  assert (Hgoal : exists fuel, is_Some (loop fuel pkg r')).
  { destruct (is_visited (visited (run_dw r)) p) eqn:Hvisited.
    - assert (Hext : forall c, is_visited (visited (run_dw r')) c =
                               is_visited (visited (run_dw r)) c).
      { intros c. rewrite Hv, is_visited_insert.
        destruct (decide (p = c)) as [<-|]; [by rewrite Hvisited | done]. }
      apply (IHa (revisits (visited (run_dw r')) (nodeQueue (run_dw r'))));
        [|by rewrite Hu; apply unvisited_ext|done..].
      rewrite Ha, Hq, Hq', revisits_app, revisits_unvisited, Nat.add_0_r.
      rewrite (revisits_ext _ _ rest Hext).
      unfold revisits. rewrite filter_cons, decide_True by done. simpl. lia.
    - apply (IHu (unvisited nodes (visited (run_dw r')))); [|done..].
      rewrite Hu, Hv. by apply unvisited_insert. }
  destruct Hgoal as [fuel Hfuel]. exists (S fuel). simpl. by rewrite Hbody.
Qed.
End WalkerTermination.

Section WalkerMarks.
Context {St : Type}.
Implicit Types (r : Run St).

Lemma marked_or (v : gmap string bool) p c (X : Prop) :
  is_visited (<[p := true]> v) c = true \/ X <->
  is_visited v c = true \/ c = p \/ X.
Proof.
  rewrite is_visited_insert. destruct (decide (p = c)); intuition congruence.
Qed.

Lemma marked_iff (v : gmap string bool) p c :
  is_visited (<[p := true]> v) c = true <->
  is_visited v c = true \/ c ∈ [p].
Proof.
  rewrite is_visited_insert, list_elem_of_singleton.
  destruct (decide (p = c)); intuition congruence.
Qed.

(** The marks after a finished run of the loop are the marks before it and
    the nodes the handler was called on in it: every handled node is marked,
    whatever the handler answered, no mark is lost, and nothing else is
    marked. *)
Theorem visited_are_handled fuel pkg r err r' :
  loop fuel pkg r = Some (err, r') ->
  exists new,
    run_calls r' = run_calls r ++ new /\
    forall c,
      is_visited (visited (run_dw r')) c = true <->
      is_visited (visited (run_dw r)) c = true \/ c ∈ handled_nodes new.
Proof.
  revert r. induction fuel as [|fuel IH]; intros r; [done|].
  rewrite loop_S. unfold loop_body.
  destruct (nodeQueue (run_dw r)) as [|p rest].
  { intros [= <- <-]. exists []. rewrite app_nil_r. split; [done|].
    intros c. simpl. rewrite elem_of_nil. tauto. }
  destruct (handleDep (run_dw r) p (run_st r)) as [[e|] s1].
  - destruct (is_ErrorSkip e).
    + intros Hloop. destruct (IH _ Hloop) as (new & Hcalls & Hmarks).
      simpl in *. exists (CallHandle p (Some e) :: new).
      split; [by rewrite Hcalls, <- app_assoc|].
      intros c. rewrite Hmarks. simpl. rewrite elem_of_cons. apply marked_or.
    + intros [= <- <-]. exists [CallHandle p (Some e)]. split; [done|].
      intros c. apply marked_iff.
  - destruct (readPackage (run_dw r) p s1) as [[cs [e|]] s2].
    + intros [= <- <-]. exists [CallHandle p None; CallRead p cs (Some e)].
      split; [by rewrite <- app_assoc|]. intros c. apply marked_iff.
    + intros Hloop. destruct (IH _ Hloop) as (new & Hcalls & Hmarks).
      simpl in *. exists (CallHandle p None :: CallRead p cs None :: new).
      split; [by rewrite Hcalls, <- !app_assoc|].
      intros c. rewrite Hmarks. simpl. rewrite elem_of_cons. apply marked_or.
Qed.
End WalkerMarks.

Section WalkerComplete.
Context {St : Type}.
Implicit Types (r : Run St).

Lemma marked_mono (v : gmap string bool) p c :
  is_visited v c = true -> is_visited (<[p := true]> v) c = true.
Proof. rewrite is_visited_insert. by destruct (decide (p = c)). Qed.

Lemma marked_head (v : gmap string bool) p :
  is_visited (<[p := true]> v) p = true.
Proof. by rewrite is_visited_insert, decide_True. Qed.

(** A traversal that returns [nil] leaves nothing behind: the queue is
    empty, every node that was in the queue is marked, and so is every child
    that a read of the traversal returned. *)
Theorem no_child_missed fuel pkg r r' :
  loop fuel pkg r = Some (None, r') ->
  nodeQueue (run_dw r') = [] /\
  (forall c, is_visited (visited (run_dw r)) c = true ->
             is_visited (visited (run_dw r')) c = true) /\
  (forall q, q ∈ nodeQueue (run_dw r) ->
             is_visited (visited (run_dw r')) q = true) /\
  exists new,
    run_calls r' = run_calls r ++ new /\
    forall p cs err c,
      CallRead p cs err ∈ new -> c ∈ cs ->
      is_visited (visited (run_dw r')) c = true.
Proof.
  revert r. induction fuel as [|fuel IH]; intros r; [done|].
  rewrite loop_S. unfold loop_body.
  destruct (nodeQueue (run_dw r)) as [|p rest] eqn:Hq.
  { intros [= <-]. rewrite Hq. split; [done|]. split; [done|].
    split; [by intros q ?%elem_of_nil|].
    exists []. rewrite app_nil_r. split; [done|].
    by intros ???? ?%elem_of_nil. }
  destruct (handleDep (run_dw r) p (run_st r)) as [[e|] s1].
  - destruct (is_ErrorSkip e); [|done].
    intros Hloop.
    destruct (IH _ Hloop) as (Hempty & Hmono & Hqueue & new & Hcalls & Hreads).
    simpl in *. split; [done|].
    split; [by intros c Hc; apply Hmono, marked_mono|].
    split.
    { intros q [->|Hin]%elem_of_cons; [apply Hmono, marked_head | by apply Hqueue]. }
    exists (CallHandle p (Some e) :: new).
    split; [by rewrite Hcalls, <- app_assoc|].
    intros p' cs err c [Hin|Hin]%elem_of_cons; [done|]. by apply (Hreads p' cs err).
  - destruct (readPackage (run_dw r) p s1) as [[cs [e|]] s2]; [done|].
    intros Hloop.
    destruct (IH _ Hloop) as (Hempty & Hmono & Hqueue & new & Hcalls & Hreads).
    simpl in *. rewrite enqueue_filter in Hqueue.
    split; [done|].
    split; [by intros c Hc; apply Hmono, marked_mono|].
    split.
    { intros q [->|Hin]%elem_of_cons; [apply Hmono, marked_head|].
      apply Hqueue, elem_of_app. by left. }
    exists (CallHandle p None :: CallRead p cs None :: new).
    split; [by rewrite Hcalls, <- !app_assoc|].
    intros p' cs' err c [Hin|[Hin|Hin]%elem_of_cons]%elem_of_cons Hc;
      [done| |by apply (Hreads p' cs' err)].
    injection Hin as -> -> ->.
    destruct (is_visited (<[p := true]> (visited (run_dw r))) c) eqn:Hv.
    + by apply Hmono.
    + apply Hqueue, elem_of_app. right. apply list_elem_of_filter.
      split; [done|]. by rewrite (sort_Strings_Permutation cs).
Qed.
End WalkerComplete.

Lemma graph_reader_children g p s cs err s' c :
  graph_reader g p s = ((cs, err), s') ->
  c ∈ cs -> exists e, e ∈ g /\ c ∈ snd e.
Proof.
  unfold graph_reader.
  destruct (List.find (fun e => String.eqb (fst e) p) g) as [e|] eqn:Hfind.
  - intros [= <- _ _] Hc. exists e. split; [|done].
    apply list_elem_of_In. by apply List.find_some in Hfind as [? _].
  - intros [= <- _ _] Hc. by apply elem_of_nil in Hc.
Qed.

(** The traversal of [cycle] ends although every node leads back to ["A"]. *)
Lemma cycle_terminates : exists fuel, is_Some (loop fuel "A" cycle_start).
Proof.
  apply (traversal_terminates {["A"; "B"; "C"]} "A" cycle_start).
  - intros q Hq. simpl in Hq. each_member Hq. set_solver.
  - intros p s cs err s' Hread c Hc.
    destruct (graph_reader_children _ _ _ _ _ _ _ Hread Hc) as (e & He & Hin).
    unfold cycle in He. each_member He; simpl in Hin; each_member Hin;
      set_solver.
Defined.

Example cycle_calls :
  calls_of (loop 10 "A" cycle_start) =
  [CallHandle "A" None; CallRead "A" ["B"; "C"] None;
   CallHandle "B" None; CallRead "B" ["C"; "A"] None;
   CallHandle "C" None; CallRead "C" ["A"] None;
   CallHandle "C" None; CallRead "C" ["A"] None].
Proof. vm_compute. reflexivity. Qed.

Lemma cycle_marks :
  let r' := run_of cycle_start (loop 10 "A" cycle_start) in
  exists new,
    run_calls r' = run_calls cycle_start ++ new /\
    forall c,
      is_visited (visited (run_dw r')) c = true <->
      is_visited (visited (run_dw cycle_start)) c = true \/
      c ∈ handled_nodes new.
Proof.
  apply (visited_are_handled 10 "A" cycle_start None).
  vm_compute. reflexivity.
Defined.

Lemma cycle_complete :
  let r' := run_of cycle_start (loop 10 "A" cycle_start) in
  nodeQueue (run_dw r') = [] /\
  (forall c, is_visited (visited (run_dw cycle_start)) c = true ->
             is_visited (visited (run_dw r')) c = true) /\
  (forall q, q ∈ nodeQueue (run_dw cycle_start) ->
             is_visited (visited (run_dw r')) q = true) /\
  exists new,
    run_calls r' = run_calls cycle_start ++ new /\
    forall p cs err c,
      CallRead p cs err ∈ new -> c ∈ cs ->
      is_visited (visited (run_dw r')) c = true.
Proof.
  apply (no_child_missed 10 "A" cycle_start).
  vm_compute. reflexivity.
Defined.

Section WalkerErrors.
Context {St : Type}.
Implicit Types (r : Run St).

Lemma loop_body_Return pkg r e r' :
  loop_body pkg r = (Return (Some e), r') ->
  (e <> ErrorSkip /\
   exists p s s', handleDep (run_dw r) p s = (Some e, s')) \/
  (exists p s cs e' s',
     readPackage (run_dw r) p s = ((cs, Some e'), s') /\
     e = errorString ("cant read deps of package " +:+ pkg +:+
                      " with error " +:+ Error e')).
Proof.
  unfold loop_body.
  destruct (nodeQueue (run_dw r)) as [|p rest]; [done|].
  destruct (handleDep (run_dw r) p (run_st r)) as [[he|] s1] eqn:Hh.
  - destruct (is_ErrorSkip he) eqn:Hskip; [done|].
    intros [= <- _]. left. split; [by intros ->|]. by exists p, (run_st r), s1.
  - destruct (readPackage (run_dw r) p s1) as [[cs [re|]] s2] eqn:Hread; [|done].
    intros [= <- _]. right. by exists p, s1, cs, re, s2.
Qed.

Lemma loop_error_origin_cases fuel pkg r e r' :
  loop fuel pkg r = Some (Some e, r') ->
  (e <> ErrorSkip /\
   exists p s s', handleDep (run_dw r) p s = (Some e, s')) \/
  (exists p s cs e' s',
     readPackage (run_dw r) p s = ((cs, Some e'), s') /\
     e = errorString ("cant read deps of package " +:+ pkg +:+
                      " with error " +:+ Error e')).
Proof.
  revert r. induction fuel as [|fuel IH]; intros r; [done|].
  rewrite loop_S.
  destruct (loop_body pkg r) as [[|err] r1] eqn:Hbody.
  - intros Hloop.
    destruct (loop_body_Next pkg r r1 Hbody)
      as (p & rest & children & _ & _ & Hrd & Hhd & _).
    specialize (IH r1 Hloop). by rewrite Hrd, Hhd in IH.
  - intros [= -> <-]. exact (loop_body_Return pkg r e _ Hbody).
Qed.

(** An error a traversal returns is an error the handler returned, as it
    is and other than [ErrorSkip], or an error of the reader, wrapped in a
    text with the argument of the traversal. *)
Theorem loop_error_origin fuel pkg r e r' :
  loop fuel pkg r = Some (Some e, r') ->
  (e <> ErrorSkip /\
   exists p s s', handleDep (run_dw r) p s = (Some e, s')) \/
  (exists p s cs e' s',
     readPackage (run_dw r) p s = ((cs, Some e'), s') /\
     e = errorString ("cant read deps of package " +:+ pkg +:+
                      " with error " +:+ Error e')).
Proof. exact (loop_error_origin_cases fuel pkg r e r'). Qed.
End WalkerErrors.

Lemma misspelled_skip_origin :
  let e := errorString "skip this dep" in
  let r := midway (reject_at "B" e) in
  (e <> ErrorSkip /\
   exists p s s', handleDep (run_dw r) p s = (Some e, s')) \/
  (exists p s cs e' s',
     readPackage (run_dw r) p s = ((cs, Some e'), s') /\
     e = errorString ("cant read deps of package " +:+ "A" +:+
                      " with error " +:+ Error e')).
Proof.
  apply (loop_error_origin 5 "A"
           (midway (reject_at "B" (errorString "skip this dep")))
           (errorString "skip this dep")
           (run_of (midway accept_all)
              (loop 5 "A"
                 (midway (reject_at "B" (errorString "skip this dep")))))).
  vm_compute. reflexivity.
Defined.

Section WalkerSound.
Context {St : Type}.
Implicit Types (r : Run St).

(** The handler is called on nothing but what was asked for: every node
    handled in a finished run of the loop was in the queue at its start or
    is a child that a read of this run returned without error. *)
Theorem handled_were_queued fuel pkg r err r' :
  loop fuel pkg r = Some (err, r') ->
  exists new,
    run_calls r' = run_calls r ++ new /\
    forall p, p ∈ handled_nodes new ->
      p ∈ nodeQueue (run_dw r) \/
      exists q cs, CallRead q cs None ∈ new /\ p ∈ cs.
Proof.
  revert r. induction fuel as [|fuel IH]; intros r; [done|].
  rewrite loop_S. unfold loop_body.
  destruct (nodeQueue (run_dw r)) as [|p rest].
  { intros [= <- <-]. exists []. rewrite app_nil_r. split; [done|].
    by intros p ?%elem_of_nil. }
  destruct (handleDep (run_dw r) p (run_st r)) as [[e|] s1].
  - destruct (is_ErrorSkip e).
    + intros Hloop. destruct (IH _ Hloop) as (new & Hcalls & Hnew).
      simpl in *. exists (CallHandle p (Some e) :: new).
      split; [by rewrite Hcalls, <- app_assoc|].
      intros p' [->|Hin]%elem_of_cons; [left; apply list_elem_of_here|].
      destruct (Hnew p' Hin) as [Hq|(q & cs & Hread & Hc)].
      * left. by apply list_elem_of_further.
      * right. exists q, cs. split; [by apply list_elem_of_further | done].
    + intros [= <- <-]. exists [CallHandle p (Some e)]. split; [done|].
      intros p' ->%list_elem_of_singleton. left. apply list_elem_of_here.
  - destruct (readPackage (run_dw r) p s1) as [[cs [e|]] s2].
    + intros [= <- <-]. exists [CallHandle p None; CallRead p cs (Some e)].
      split; [by rewrite <- app_assoc|].
      intros p' ->%list_elem_of_singleton. left. apply list_elem_of_here.
    + intros Hloop. destruct (IH _ Hloop) as (new & Hcalls & Hnew).
      simpl in *. rewrite enqueue_filter in Hnew.
      exists (CallHandle p None :: CallRead p cs None :: new).
      split; [by rewrite Hcalls, <- !app_assoc|].
      intros p' [->|Hin]%elem_of_cons; [left; apply list_elem_of_here|].
      destruct (Hnew p' Hin)
        as [[Hq|[_ Hc]%list_elem_of_filter]%elem_of_app|(q & cs' & Hread & Hc)].
      * left. by apply list_elem_of_further.
      * right. exists p, cs. split.
        -- apply list_elem_of_further, list_elem_of_here.
        -- by rewrite <- (sort_Strings_Permutation cs).
      * right. exists q, cs'. split; [|done].
        by apply list_elem_of_further, list_elem_of_further.
Qed.
End WalkerSound.

Lemma cycle_handles_what_was_read :
  let r' := run_of cycle_start (loop 10 "A" cycle_start) in
  exists new,
    run_calls r' = run_calls cycle_start ++ new /\
    forall p, p ∈ handled_nodes new ->
      p ∈ nodeQueue (run_dw cycle_start) \/
      exists q cs, CallRead q cs None ∈ new /\ p ∈ cs.
Proof.
  apply (handled_were_queued 10 "A" cycle_start None).
  vm_compute. reflexivity.
Defined.

(** * More on the snapshot driver *)

Section SaverErrors.
Variable PackageName : string -> string -> string * option error.
Variable PackageSource : string -> string -> string.
Variable PathIsChild : string -> string -> bool.
Variable VisibleSubDirectories : string -> list string * option error.
Variable Stat : string -> StatResult.

Lemma SavePackageDeps_error_cases path ds :
  let out := SavePackageDeps PackageName PackageSource Stat path ds in
  fst out = None \/
  (fst out = Some ErrorSkip /\
   snd (PackageName (gopath ds) path) = None /\
   Stat path <> StatInfo true) \/
  (fst out =
     Some (errorString ("Error getting package name for path " +:+ path)) /\
   snd (PackageName (gopath ds) path) <> None /\
   snd out = ds).
Proof.
  unfold SavePackageDeps, stat_error.
  destruct (PackageName (gopath ds) path) as [pkg [e|]]; simpl.
  { right. right. done. }
  destruct (Stat path) as [[|]|e|e]; simpl;
    try (right; left; done).
  destruct (String.eqb path (PackageSource (gopath ds) "")); [by left|].
  destruct (read ds path) as [pkgDeps [e|]]; [|by left].
  destruct (Nat.eqb (size pkgDeps) 0); [|by left].
  destruct e as [ | msg | pe | msg inner]; try by left.
  destruct (IsNoBuildable pe); by left.
Qed.

(** The error of [SavePackageDeps] is [nil], [ErrorSkip] or the error for a
    path without import path, and the last one leaves the saver as it was.
    An error of the package reader is never returned. *)
Theorem SavePackageDeps_errors path ds :
  let out := SavePackageDeps PackageName PackageSource Stat path ds in
  fst out = None \/
  (fst out = Some ErrorSkip /\
   snd (PackageName (gopath ds) path) = None /\
   Stat path <> StatInfo true) \/
  (fst out =
     Some (errorString ("Error getting package name for path " +:+ path)) /\
   snd (PackageName (gopath ds) path) <> None /\
   snd out = ds).
Proof. apply SavePackageDeps_error_cases. Qed.

Lemma PackagePaths_error path ds cs e ds' :
  PackagePaths PackageName PackageSource PathIsChild VisibleSubDirectories
    path ds = ((cs, Some e), ds') ->
  snd (VisibleSubDirectories path) = Some e \/
  snd (PackageName (gopath ds) path) = Some e.
Proof.
  unfold PackagePaths.
  destruct (PathIsChild (root ds) path).
  - destruct (VisibleSubDirectories path) as [subdirs [le|]]; simpl.
    { intros [= _ <- _]. by left. }
    destruct (PackageName (gopath ds) path) as [pkg [ne|]]; simpl.
    { intros [= _ <- _]. by right. }
    destruct (deps ds !! pkg) as [dep|]; [|done].
    by destruct (Err dep).
  - destruct (PackageName (gopath ds) path) as [pkg [ne|]]; simpl.
    { intros [= _ <- _]. by right. }
    destruct (deps ds !! pkg) as [dep|]; [|done].
    by destruct (Err dep).
Qed.

(** A snapshot, the traversal with [SavePackageDeps] as handler and
    [PackagePaths] as reader, returns an error only for a path without
    import path or for a directory under the root that cannot be listed:
    what is wrong with one package (not a directory, not to be read) never
    ends it. *)
Theorem snapshot_errors fuel pkg (r : Run DependencySaver) e r' :
  handleDep (run_dw r) = SavePackageDeps PackageName PackageSource Stat ->
  readPackage (run_dw r) =
    PackagePaths PackageName PackageSource PathIsChild VisibleSubDirectories ->
  loop fuel pkg r = Some (Some e, r') ->
  (exists path ds,
     snd (PackageName (gopath ds) path) <> None /\
     e = errorString ("Error getting package name for path " +:+ path)) \/
  (exists path ds e',
     (snd (VisibleSubDirectories path) = Some e' \/
      snd (PackageName (gopath ds) path) = Some e') /\
     e = errorString ("cant read deps of package " +:+ pkg +:+
                      " with error " +:+ Error e')).
Proof.
  intros Hhandler Hreader Hloop.
  destruct (loop_error_origin_cases fuel pkg r e r' Hloop)
    as [[Hskip (p & s & s' & Hh)]|(p & s & cs & e' & s' & Hr & ->)].
  - left. exists p, s. rewrite Hhandler in Hh.
    destruct (SavePackageDeps_error_cases p s) as [Hnil|[Hs|(He & Hname & _)]];
      rewrite Hh in *; simpl in *.
    + done.
    + destruct Hs as [[= ->] _]. done.
    + injection He as ->. done.
  - right. exists p, s, e'. split; [|done].
    rewrite Hreader in Hr. by apply (PackagePaths_error p s cs e' s').
Qed.

End SaverErrors.
(** * Recording what a package imports *)

Lemma AddDependency_adds (d : Dependencies) dep :
  exists rec,
    AddDependency d dep !! ImportPath dep = Some rec /\
    Imports dep ⊆ Imports rec /\ ImportedFrom dep ⊆ ImportedFrom rec.
Proof.
  unfold AddDependency. destruct (d !! ImportPath dep) as [prev|].
  - eexists. rewrite lookup_insert_eq. split; [done|]. simpl. set_solver.
  - exists dep. by rewrite lookup_insert_eq.
Qed.

Lemma AddDependency_grows (d : Dependencies) dep k rec :
  d !! k = Some rec ->
  exists rec',
    AddDependency d dep !! k = Some rec' /\
    Imports rec ⊆ Imports rec' /\ ImportedFrom rec ⊆ ImportedFrom rec'.
Proof.
  intros Hk. unfold AddDependency.
  destruct (decide (ImportPath dep = k)) as [<-|Hne].
  - rewrite Hk. eexists. rewrite lookup_insert_eq. split; [done|].
    simpl. set_solver.
  - exists rec. destruct (d !! ImportPath dep);
      by rewrite lookup_insert_ne.
Qed.

Lemma AddDependencies_adds (d deps : Dependencies) :
  (forall k rec, d !! k = Some rec ->
     exists rec', AddDependencies d deps !! k = Some rec' /\
       Imports rec ⊆ Imports rec' /\ ImportedFrom rec ⊆ ImportedFrom rec') /\
  (forall k dep, deps !! k = Some dep ->
     exists rec, AddDependencies d deps !! ImportPath dep = Some rec /\
       Imports dep ⊆ Imports rec /\ ImportedFrom dep ⊆ ImportedFrom rec).
Proof.
  unfold AddDependencies.
  apply (map_fold_weak_ind
    (fun (acc : Dependencies) (m : Dependencies) =>
       (forall k rec, d !! k = Some rec ->
          exists rec', acc !! k = Some rec' /\
            Imports rec ⊆ Imports rec' /\ ImportedFrom rec ⊆ ImportedFrom rec') /\
       (forall k dep, m !! k = Some dep ->
          exists rec, acc !! ImportPath dep = Some rec /\
            Imports dep ⊆ Imports rec /\ ImportedFrom dep ⊆ ImportedFrom rec))).
  - split; [by eauto|]. intros k dep. by rewrite lookup_empty.
  - intros i x m acc Hi [Hold Hnew]. split.
    + intros k rec Hk. destruct (Hold k rec Hk) as (rec1 & H1 & ? & ?).
      destruct (AddDependency_grows acc x k rec1 H1) as (rec2 & H2 & ? & ?).
      exists rec2. split; [done|]. set_solver.
    + intros k dep [[-> ->]|[_ Hk]]%lookup_insert_Some.
      * apply AddDependency_adds.
      * destruct (Hnew k dep Hk) as (rec1 & H1 & ? & ?).
        destruct (AddDependency_grows acc x _ rec1 H1) as (rec2 & H2 & ? & ?).
        exists rec2. split; [done|]. set_solver.
Qed.

Lemma imports_of_fold pkg (m : Dependencies) :
  let dep := map_fold (fun _ pkgDep dep => add_Imports (ImportPath pkgDep) dep)
               (NewDependency pkg) m in
  ImportPath dep = pkg /\
  forall k d, m !! k = Some d -> ImportPath d ∈ Imports dep.
Proof.
  apply (map_fold_weak_ind
    (fun (dep : Dependency) (m : Dependencies) =>
       ImportPath dep = pkg /\
       forall k d, m !! k = Some d -> ImportPath d ∈ Imports dep)).
  - split; [done|]. intros k d. by rewrite lookup_empty.
  - intros i x m' dep Hi [Hpath Himports]. split; [done|].
    intros k d [[-> ->]|[_ Hk]]%lookup_insert_Some; simpl.
    + set_solver.
    + specialize (Himports k d Hk). set_solver.
Qed.

(** After [record_deps] the package has a record that imports every
    dependency read, and every dependency read has a record that is imported
    from the package; what was recorded before is still there. *)
Lemma record_deps_records (d : Dependencies) pkg (pkgDeps : Dependencies) :
  (exists rec,
     record_deps d pkg pkgDeps !! pkg = Some rec /\
     forall k dep, pkgDeps !! k = Some dep -> ImportPath dep ∈ Imports rec) /\
  (forall k dep, pkgDeps !! k = Some dep ->
     exists rec,
       record_deps d pkg pkgDeps !! ImportPath dep = Some rec /\
       pkg ∈ ImportedFrom rec) /\
  (forall k rec, d !! k = Some rec ->
     exists rec', record_deps d pkg pkgDeps !! k = Some rec' /\
       Imports rec ⊆ Imports rec' /\ ImportedFrom rec ⊆ ImportedFrom rec').
Proof.
  unfold record_deps.
  set (marked := add_ImportedFrom pkg <$> pkgDeps).
  set (dep := map_fold _ (NewDependency pkg) marked).
  destruct (imports_of_fold pkg marked) as [Hpath Himports]. fold dep in Hpath, Himports.
  destruct (AddDependencies_adds d marked) as [Hold Hnew].
  split; [|split].
  - destruct (AddDependency_adds (AddDependencies d marked) dep)
      as (rec & Hrec & Hsub & _).
    rewrite Hpath in Hrec. exists rec. split; [done|].
    intros k x Hk. apply Hsub.
    apply (Himports k (add_ImportedFrom pkg x)).
    unfold marked. by rewrite lookup_fmap, Hk.
  - intros k x Hk.
    destruct (Hnew k (add_ImportedFrom pkg x)) as (rec1 & H1 & _ & Hfrom).
    { unfold marked. by rewrite lookup_fmap, Hk. }
    destruct (AddDependency_grows _ dep _ rec1 H1) as (rec2 & H2 & _ & Hfrom2).
    exists rec2. split; [done|]. apply Hfrom2, Hfrom. simpl. set_solver.
  - intros k rec Hk. destruct (Hold k rec Hk) as (rec1 & H1 & ? & ?).
    destruct (AddDependency_grows _ dep _ rec1 H1) as (rec2 & H2 & ? & ?).
    exists rec2. split; [done|]. set_solver.
Qed.

Section LoaderMore.
Context {World : Type}.
Variable PackageSource : string -> string -> string.
Variable PathIsChild : string -> string -> bool.
Variable Stat : World -> string -> StatResult.
Variable Create : VCS -> string -> World -> option error * World.

Local Abbreviation Fetch :=
  (FetchUpdatePackage PackageSource PathIsChild Stat Create).

Lemma FetchUpdatePackage_cases pkg (dl : DependencyLoader World) w :
  (exists e w', Fetch pkg dl w = (Some (errorString e), dl, w')) \/
  (exists w0 pdeps w',
     readDeps dl (PackageSource (lgopath dl) pkg) w0 = ((pdeps, None), w') /\
     Fetch pkg dl w =
       (None, set_ldeps dl (record_deps (ldeps dl) pkg pdeps), w')).
Proof.
  assert (Hload : forall w0,
    (exists e w', load_deps pkg (PackageSource (lgopath dl) pkg) dl w0 =
                  (Some (errorString e), dl, w')) \/
    (exists pdeps w',
       readDeps dl (PackageSource (lgopath dl) pkg) w0 = ((pdeps, None), w') /\
       load_deps pkg (PackageSource (lgopath dl) pkg) dl w0 =
         (None, set_ldeps dl (record_deps (ldeps dl) pkg pdeps), w'))).
  { intros w0. unfold load_deps.
    destruct (readDeps dl (PackageSource (lgopath dl) pkg) w0)
      as [[pdeps [e|]] w'] eqn:Hread; [left | right]; eauto. }
  unfold FetchUpdatePackage.
  destruct (Stat w (PackageSource (lgopath dl) pkg)) as [[|]|e|e].
  - destruct (Hload w) as [?|(pdeps & w' & ? & ?)]; [by left|].
    right. by exists w, pdeps, w'.
  - left. eauto.
  - destruct (resolver dl pkg (cdepForPkg PathIsChild dl pkg)) as [vcs|re].
    + unfold fetchPackage. destruct (Create vcs "" w) as [[ce|] w1].
      * left. eauto.
      * destruct (Hload w1) as [?|(pdeps & w' & ? & ?)]; [by left|].
        right. by exists w1, pdeps, w'.
    + left. eauto.
  - destruct (Hload w) as [?|(pdeps & w' & ? & ?)]; [by left|].
    right. by exists w, pdeps, w'.
Qed.

(** When [FetchUpdatePackage] returns an error, the dependencies of the
    loader are as they were, and the error is a new one and never
    [ErrorSkip]: in a traversal every failure of the loader is final. *)
Theorem FetchUpdatePackage_failure pkg (dl : DependencyLoader World) w e dl' w' :
  FetchUpdatePackage PackageSource PathIsChild Stat Create pkg dl w
    = (Some e, dl', w') ->
  dl' = dl /\ e <> ErrorSkip.
Proof.
  intros Hfetch.
  destruct (FetchUpdatePackage_cases pkg dl w)
    as [(msg & w1 & Hcase)|(w0 & pdeps & w1 & _ & Hcase)];
    rewrite Hcase in Hfetch; [|done].
  injection Hfetch as He Hdl Hw. subst. done.
Qed.

(** When [FetchUpdatePackage] returns [nil], [PackageImports] of the same
    package does not fail and lists the import path of every dependency
    that was read; every dependency read has a record imported from the
    package; and the records there were are still there. *)
Theorem FetchUpdatePackage_then_PackageImports pkg
    (dl : DependencyLoader World) w dl' w' :
  FetchUpdatePackage PackageSource PathIsChild Stat Create pkg dl w
    = (None, dl', w') ->
  exists w0 pdeps,
    readDeps dl (PackageSource (lgopath dl) pkg) w0 = ((pdeps, None), w') /\
    snd (PackageImports pkg dl') = None /\
    (forall k dep, pdeps !! k = Some dep ->
       ImportPath dep ∈ fst (PackageImports pkg dl') /\
       exists rec, ldeps dl' !! ImportPath dep = Some rec /\
                   pkg ∈ ImportedFrom rec) /\
    (forall k rec, ldeps dl !! k = Some rec -> is_Some (ldeps dl' !! k)).
Proof.
  intros Hfetch.
  destruct (FetchUpdatePackage_cases pkg dl w)
    as [(msg & w1 & Hcase)|(w0 & pdeps & w1 & Hread & Hcase)];
    rewrite Hcase in Hfetch; [done|].
  injection Hfetch as <- <-. exists w0, pdeps. split; [done|].
  destruct (record_deps_records (ldeps dl) pkg pdeps)
    as ((rec & Hrec & Himports) & Hfrom & Hold).
  unfold PackageImports. simpl. rewrite Hrec. simpl. split; [done|]. split.
  - intros k dep Hk. split; [|by apply (Hfrom k)].
    apply elem_of_elements. by apply (Himports k).
  - intros k rec0 Hk. destruct (Hold k rec0 Hk) as (rec1 & H1 & _). by exists rec1.
Qed.
End LoaderMore.

Section SaverMore.
Variable PackageName : string -> string -> string * option error.
Variable PackageSource : string -> string -> string.
Variable Stat : string -> StatResult.

(** When the reader returns dependencies, they are recorded whether or not
    it returns an error with them: [SavePackageDeps] returns [nil], the
    package has a record that imports each of them, and each of them has a
    record imported from the package. *)
Theorem SavePackageDeps_records path ds pkg pkgDeps err :
  PackageName (gopath ds) path = (pkg, None) ->
  Stat path = StatInfo true ->
  path <> PackageSource (gopath ds) "" ->
  read ds path = (pkgDeps, err) ->
  err = None \/ size pkgDeps <> 0 ->
  let out := SavePackageDeps PackageName PackageSource Stat path ds in
  fst out = None /\
  (exists rec,
     deps (snd out) !! pkg = Some rec /\
     forall k dep, pkgDeps !! k = Some dep -> ImportPath dep ∈ Imports rec) /\
  (forall k dep, pkgDeps !! k = Some dep ->
     exists rec,
       deps (snd out) !! ImportPath dep = Some rec /\
       pkg ∈ ImportedFrom rec).
Proof.
  intros Hname Hstat Hsrc Hread Hdeps out.
  assert (Hout : out =
    (None, set_deps ds (record_deps (deps ds) pkg pkgDeps))).
  { unfold out, SavePackageDeps, stat_error. rewrite Hname, Hstat.
    apply String.eqb_neq in Hsrc. rewrite Hsrc, Hread.
    destruct err as [e|]; [|done].
    destruct Hdeps as [?|Hsize]; [done|].
    apply Nat.eqb_neq in Hsize. by rewrite Hsize. }
  rewrite Hout. simpl. split; [done|].
  destruct (record_deps_records (deps ds) pkg pkgDeps) as (Hrec & Hfrom & _).
  done.
Qed.
End SaverMore.

(** A package without repository: the loader fails and records nothing. *)
Lemma lost_package_fails :
  let out := FetchUpdatePackage ex_PackageSource ex_PathIsChild
               ex_missing_Stat ex_logged_Create "example.org/x"
               ex_loader_lost [] in
  snd (fst out) = ex_loader_lost /\
  errorString
    "example.org/x version control no repository for example.org/x"
    <> ErrorSkip.
Proof.
  apply (FetchUpdatePackage_failure ex_PackageSource ex_PathIsChild
           ex_missing_Stat ex_logged_Create "example.org/x" ex_loader_lost []
           (errorString
              "example.org/x version control no repository for example.org/x")
           _ []).
  reflexivity.
Defined.

(** A package that is fetched and imports two packages. *)
Lemma fetched_package_imports :
  let out := FetchUpdatePackage ex_PackageSource ex_PathIsChild
               ex_missing_Stat ex_logged_Create "example.org/app"
               ex_loader_two [] in
  let dl' := snd (fst out) in
  exists w0 pdeps,
    readDeps ex_loader_two (ex_PackageSource "/go" "example.org/app") w0 =
      ((pdeps, None), snd out) /\
    snd (PackageImports "example.org/app" dl') = None /\
    (forall k dep, pdeps !! k = Some dep ->
       ImportPath dep ∈ fst (PackageImports "example.org/app" dl') /\
       exists rec, ldeps dl' !! ImportPath dep = Some rec /\
                   "example.org/app" ∈ ImportedFrom rec) /\
    (forall k rec, ldeps ex_loader_two !! k = Some rec ->
                   is_Some (ldeps dl' !! k)).
Proof.
  apply (FetchUpdatePackage_then_PackageImports ex_PackageSource
           ex_PathIsChild ex_missing_Stat ex_logged_Create "example.org/app"
           ex_loader_two []).
  reflexivity.
Defined.

Example fetched_package_graph :
  let out := FetchUpdatePackage ex_PackageSource ex_PathIsChild
               ex_missing_Stat ex_logged_Create "example.org/app"
               ex_loader_two [] in
  snd out = ["create"; "read /go/src/example.org/app"] /\
  sort_Strings (fst (PackageImports "example.org/app" (snd (fst out)))) =
    ["example.org/repo/sub1"; "example.org/repo/sub2"] /\
  (ImportedFrom <$> ldeps (snd (fst out)) !! "example.org/repo/sub1") =
    Some {["example.org/app"]}.
Proof. vm_compute. repeat split. Qed.

(** Dependencies that come with an error are recorded all the same. *)
Lemma deps_with_error_are_recorded :
  let ds := ex_saver reader_with_error in
  let out := SavePackageDeps ex_PackageName ex_PackageSource ex_Stat
               "/go/src/proj/pkg" ds in
  fst out = None /\
  (exists rec,
     deps (snd out) !! "proj/pkg" = Some rec /\
     forall k dep, two_deps !! k = Some dep -> ImportPath dep ∈ Imports rec) /\
  (forall k dep, two_deps !! k = Some dep ->
     exists rec,
       deps (snd out) !! ImportPath dep = Some rec /\
       "proj/pkg" ∈ ImportedFrom rec).
Proof.
  apply (SavePackageDeps_records ex_PackageName ex_PackageSource ex_Stat
           "/go/src/proj/pkg" (ex_saver reader_with_error) "proj/pkg"
           two_deps (Some (errorString "exit status 1")));
    [reflexivity | reflexivity | discriminate | reflexivity |].
  right. vm_compute. discriminate.
Defined.

(** A snapshot started outside the workspace ends with the error for a path
    without import path. *)
Lemma snapshot_outside_workspace :
  let e := errorString "Error getting package name for path /tmp/other" in
  (exists path ds,
     snd (ex_PackageName (gopath ds) path) <> None /\
     e = errorString ("Error getting package name for path " +:+ path)) \/
  (exists path ds e',
     (snd (ex_VisibleSubDirectories path) = Some e' \/
      snd (ex_PackageName (gopath ds) path) = Some e') /\
     e = errorString ("cant read deps of package " +:+ "/tmp/other" +:+
                      " with error " +:+ Error e')).
Proof.
  apply (snapshot_errors ex_PackageName ex_PackageSource ex_PathIsChild
           ex_VisibleSubDirectories ex_Stat 1 "/tmp/other"
           (snapshot_start no_go_files "/tmp/other")
           (errorString "Error getting package name for path /tmp/other")
           (run_of (snapshot_start no_go_files "/tmp/other")
              (loop 1 "/tmp/other" (snapshot_start no_go_files "/tmp/other"))));
    reflexivity.
Defined.

(** * More on the source resolver *)

Section ResolveMore.
Variable PackageSource : string -> string -> string.
Variable PathIsChild : string -> string -> bool.
Variable sr : SourcesResolver.

Local Abbreviation continues1 := (continues PackageSource PathIsChild sr).
Local Abbreviation resolve_loop1 := (resolve_loop PackageSource PathIsChild sr).
Local Abbreviation ResolveSources1 :=
  (ResolveSources PackageSource PathIsChild sr).

Lemma AddDependency_not_empty (d : Dependencies) dep : AddDependency d dep <> ∅.
Proof.
  intros Hempty. destruct (AddDependency_adds d dep) as (rec & Hrec & _).
  by rewrite Hempty, lookup_empty in Hrec.
Qed.

Lemma AddDependency_keys (d : Dependencies) dep k :
  is_Some (AddDependency d dep !! k) <->
  k = ImportPath dep \/ is_Some (d !! k).
Proof.
  unfold AddDependency.
  destruct (d !! ImportPath dep) as [prev|] eqn:Hprev;
    rewrite lookup_insert_is_Some; split.
  - intros [->|[_ ?]]; auto.
  - intros [->|Hk]; [by left|].
    destruct (decide (ImportPath dep = k)); [by left | by right].
  - intros [->|[_ ?]]; auto.
  - intros [->|Hk]; [by left|].
    destruct (decide (ImportPath dep = k)); [by left | by right].
Qed.

(** A step keeps the sources well formed, each with the root, revision and
    remote of the repository of a dependency seen so far. *)
Lemma continues_well_formed (seen : list Dependency) sources dep sources' :
  continues1 sources dep sources' ->
  Forall (fun s => well_formed_source s /\
                   exists d, d ∈ seen /\ source_of_repo sr d s) sources ->
  Forall (fun s => well_formed_source s /\
                   exists d, d ∈ seen ++ [dep] /\ source_of_repo sr d s)
    sources' /\
  length sources' <= S (length sources).
Proof.
  intros Hc Hall.
  assert (Hweak : Forall (fun s => well_formed_source s /\
            exists d, d ∈ seen ++ [dep] /\ source_of_repo sr d s) sources).
  { eapply Forall_impl; [exact Hall|]. intros s [Hwf (d & Hd & Hrepo)].
    split; [done|]. exists d. split; [|done]. apply elem_of_app. by left. }
  destruct Hc as [i source Hfind| |vcs rev vcsSource Hfind Hres Hlevel Hrev Hsrc].
  - apply list_find_Some in Hfind as (Hi & _ & _).
    split; [|rewrite length_insert; lia].
    apply Forall_insert; [done|].
    rewrite Forall_forall in Hweak.
    destruct (Hweak source) as [(Hr & Hs & He & _) Hrepo];
      [by eapply list_elem_of_lookup_2|].
    split; [|done]. split_and!; try done. apply AddDependency_not_empty.
  - split; [done | lia].
  - split; [|rewrite length_app; simpl; lia].
    apply Forall_app. split; [done|]. constructor; [|done]. split.
    + split_and!; simpl; try done; try apply union_empty_r_L;
        try apply AddDependency_not_empty.
    + exists dep. split; [apply elem_of_app; right; apply list_elem_of_here|].
      by exists vcs.
Qed.

Lemma resolve_loop_well_formed seen order sources final :
  Forall (fun s => well_formed_source s /\
                   exists d, d ∈ seen /\ source_of_repo sr d s) sources ->
  resolve_loop1 order sources = (Some final, None) ->
  Forall (fun s => well_formed_source s /\
                   exists d, d ∈ seen ++ order /\ source_of_repo sr d s)
    final /\
  length final <= length sources + length order.
Proof.
  revert seen sources. induction order as [|dep order IH]; intros seen sources Hall.
  - intros [= <-]. rewrite app_nil_r. split; [done | simpl; lia].
  - rewrite resolve_loop_cons.
    destruct (resolve_dep PackageSource PathIsChild sr sources dep)
      as [sources'|e] eqn:Hstep; [|done].
    intros Hloop. apply resolve_dep_Continue in Hstep.
    destruct (continues_well_formed seen _ _ _ Hstep Hall) as [Hall' Hlen].
    destruct (IH (seen ++ [dep]) sources' Hall' Hloop) as [Hfinal Hlen'].
    rewrite <- app_assoc in Hfinal. split; [done|]. simpl. lia.
Qed.

(** Every source a successful pass returns has one revision and one remote,
    those of the checkout on disk, no error and at least one dependency; its
    root, revision and remote are those of the repository of a dependency
    of the graph; and there are no more sources than dependencies. *)
Theorem sources_well_formed order sources :
  ResolveSources PackageSource PathIsChild sr order = (Some sources, None) ->
  length sources <= length order /\
  forall source, source ∈ sources ->
    well_formed_source source /\
    exists dep, dep ∈ order /\ source_of_repo sr dep source.
Proof.
  intros Hrun.
  destruct (resolve_loop_well_formed [] order [] sources) as [Hall Hlen];
    [constructor | exact Hrun |].
  split; [done|]. by apply Forall_forall.
Qed.

Lemma resolve_loop_abort pre rest sources e :
  resolve_loop1 pre sources = (None, Some e) ->
  resolve_loop1 (pre ++ rest) sources = (None, Some e).
Proof.
  revert sources. induction pre as [|dep pre IH]; intros sources; [done|].
  simpl. destruct (resolve_dep PackageSource PathIsChild sr sources dep);
    [apply IH | done].
Qed.

Lemma resolve_loop_result order sources :
  (exists final, resolve_loop1 order sources = (Some final, None)) \/
  (exists e, resolve_loop1 order sources = (None, Some e)).
Proof.
  revert sources. induction order as [|dep order IH]; intros sources; simpl.
  - left. by exists sources.
  - destruct (resolve_dep PackageSource PathIsChild sr sources dep); [apply IH|].
    right. by eexists.
Qed.

(** A pass returns sources or an error and never both; an error is final,
    the dependencies after the one it arose at are not looked at; and a pass
    that succeeds on a list of dependencies succeeds on every start of it. *)
Theorem abort_is_final pre rest :
  ((exists sources,
      ResolveSources PackageSource PathIsChild sr pre = (Some sources, None)) \/
   (exists e,
      ResolveSources PackageSource PathIsChild sr pre = (None, Some e))) /\
  (forall e,
     ResolveSources PackageSource PathIsChild sr pre = (None, Some e) ->
     ResolveSources PackageSource PathIsChild sr (pre ++ rest)
       = (None, Some e)) /\
  (forall sources,
     ResolveSources PackageSource PathIsChild sr (pre ++ rest)
       = (Some sources, None) ->
     exists mid,
       ResolveSources PackageSource PathIsChild sr pre = (Some mid, None) /\
       resolve_loop PackageSource PathIsChild sr rest mid
         = (Some sources, None)).
Proof.
  split; [apply resolve_loop_result|]. split.
  - intros e. apply resolve_loop_abort.
  - intros sources Hall. unfold ResolveSources in *.
    destruct (resolve_loop_result pre []) as [[mid Hmid]|[e He]].
    + exists mid. split; [done|].
      by rewrite (resolve_loop_app _ _ _ pre rest [] mid Hmid) in Hall.
    + by rewrite (resolve_loop_abort pre rest [] e He) in Hall.
Qed.

(** With branches asked for and the branch known, the source of a new
    repository is made with the branch as its revision, and [GetRev] is not
    asked: that it would fail does not matter. *)
Theorem branch_is_the_revision sources dep vcs branch vcsSource :
  Branches sr = true ->
  DepSource PathIsChild sources dep = None ->
  Resolver sr (ImportPath dep) None = inl vcs ->
  at_save_level PackageSource PathIsChild sr (GetRoot vcs) = false ->
  GetBranch vcs = (branch, None) ->
  GetSource vcs = (vcsSource, None) ->
  exists source,
    resolve_dep PackageSource PathIsChild sr sources dep =
      Continue (sources ++ [source]) /\
    Root source = GetRoot vcs /\
    OnDiskRevision source = branch /\
    Revisions source = {[branch]} /\
    Deps source !! ImportPath dep = Some dep.
Proof.
  intros Hb Hfind Hres Hlevel Hbranch Hsrc.
  unfold resolve_dep, on_disk_revision.
  rewrite Hfind, Hres, Hlevel, Hb, Hbranch, Hsrc. simpl.
  eexists. split; [reflexivity|]. simpl. split_and!; try done.
  - apply union_empty_r_L.
  - unfold AddDependency. rewrite lookup_empty. apply lookup_insert_eq.
Qed.

Lemma continues_under sources dep sources' :
  (forall vcs, Resolver sr (ImportPath dep) None = inl vcs ->
               under PathIsChild (GetRoot vcs) (ImportPath dep) = true) ->
  continues1 sources dep sources' ->
  Forall (fun s => forall k, is_Some (Deps s !! k) ->
                             under PathIsChild (Root s) k = true) sources ->
  Forall (fun s => forall k, is_Some (Deps s !! k) ->
                             under PathIsChild (Root s) k = true) sources'.
Proof.
  intros Hsound Hc Hall.
  destruct Hc as [i source Hfind| |vcs rev vcsSource Hfind Hres Hlevel Hrev Hsrc].
  - apply list_find_Some in Hfind as (Hi & Hunder & _).
    apply Forall_insert; [done|].
    rewrite Forall_forall in Hall.
    intros k [->|Hk]%AddDependency_keys; [done|].
    apply (Hall source); [by eapply list_elem_of_lookup_2 | done].
  - done.
  - apply Forall_app. split; [done|]. constructor; [|done].
    intros k [->|[prev Hk]]%AddDependency_keys; [by apply Hsound|].
    simpl in Hk. by rewrite lookup_empty in Hk.
Qed.

Lemma resolve_loop_under order sources final :
  (forall dep vcs, dep ∈ order ->
     Resolver sr (ImportPath dep) None = inl vcs ->
     under PathIsChild (GetRoot vcs) (ImportPath dep) = true) ->
  Forall (fun s => forall k, is_Some (Deps s !! k) ->
                             under PathIsChild (Root s) k = true) sources ->
  resolve_loop1 order sources = (Some final, None) ->
  Forall (fun s => forall k, is_Some (Deps s !! k) ->
                             under PathIsChild (Root s) k = true) final.
Proof.
  revert sources. induction order as [|dep order IH]; intros sources Hsound Hall.
  - by intros [= <-].
  - rewrite resolve_loop_cons.
    destruct (resolve_dep PackageSource PathIsChild sr sources dep)
      as [sources'|e] eqn:Hstep; [|done].
    apply IH.
    + intros d vcs Hd. apply Hsound. by apply list_elem_of_further.
    + apply (continues_under sources dep); [|by apply resolve_dep_Continue|done].
      intros vcs. apply Hsound. apply list_elem_of_here.
Qed.

(** The root of a source is a prefix of the import paths of all its
    dependencies, as the comment on [Root] says, provided that the resolver
    answers with a repository whose root the import path is equal to or
    under. *)
Theorem deps_under_root order sources :
  (forall dep vcs, dep ∈ order ->
     Resolver sr (ImportPath dep) None = inl vcs ->
     under PathIsChild (GetRoot vcs) (ImportPath dep) = true) ->
  ResolveSources PackageSource PathIsChild sr order = (Some sources, None) ->
  forall source k,
    source ∈ sources -> is_Some (Deps source !! k) ->
    under PathIsChild (Root source) k = true.
Proof.
  intros Hsound Hrun source k Hin.
  pose proof (resolve_loop_under order [] sources Hsound (Forall_nil_2 _) Hrun)
    as Hall.
  rewrite Forall_forall in Hall. by apply Hall.
Qed.
End ResolveMore.

Section PlacementFacts.
Variable PackageSource : string -> string -> string.
Variable PathIsChild : string -> string -> bool.
Variable sr : SourcesResolver.
Variable order : list Dependency.
Hypothesis order_once : NoDup (ImportPath <$> order).

Local Abbreviation placed1 := (placed PackageSource PathIsChild sr).
Local Abbreviation left_out1 := (left_out PackageSource PathIsChild sr).
Local Abbreviation placed_deps1 := (placed_deps PackageSource PathIsChild sr).
Local Abbreviation placed_once1 := (placed_once PackageSource PathIsChild sr).
Local Abbreviation placed_all1 := (placed_all PackageSource PathIsChild sr).

Lemma placed_nil : placed1 [] [].
Proof.
  split.
  - intros s k dep Hs. by apply elem_of_nil in Hs.
  - intros i j s s' k Hi. by rewrite lookup_nil in Hi.
  - intros dep Hdep. by apply elem_of_nil in Hdep.
Qed.

Lemma placed_fresh processed dep rest sources s :
  processed ++ dep :: rest = order ->
  placed1 processed sources ->
  s ∈ sources -> Deps s !! ImportPath dep = None.
Proof.
  intros Hsplit Hplaced Hs.
  destruct (Deps s !! ImportPath dep) as [prev|] eqn:Hprev; [|done].
  destruct (placed_deps1 _ _ Hplaced s _ _ Hs Hprev) as [Hin Hpath].
  by destruct (order_split_fresh order order_once processed dep rest prev
                 Hsplit Hin).
Qed.

Lemma AddDependency_fresh_insert (d : Dependencies) dep :
  d !! ImportPath dep = None -> AddDependency d dep = <[ImportPath dep := dep]> d.
Proof. intros Hd. unfold AddDependency. by rewrite Hd. Qed.

Lemma continues_placed processed dep rest sources sources' :
  processed ++ dep :: rest = order ->
  placed1 processed sources ->
  continues PackageSource PathIsChild sr sources dep sources' ->
  placed1 (processed ++ [dep]) sources'.
Proof.
  intros Hsplit Hplaced Hc.
  assert (Hlast : dep ∈ processed ++ [dep]).
  { apply elem_of_app. right. apply list_elem_of_here. }
  assert (Hweak_deps : forall s k d, s ∈ sources -> Deps s !! k = Some d ->
            d ∈ processed ++ [dep] /\ ImportPath d = k).
  { intros s k d Hs Hk.
    destruct (placed_deps1 _ _ Hplaced s k d Hs Hk) as [Hd Hpath].
    split; [apply elem_of_app; by left | done]. }
  destruct Hc as [i source Hfind|Hfind Hskip|vcs rev vcsSource Hfind Hres Hlevel Hrev Hsrc].
  - apply list_find_Some in Hfind as (Hi & _ & _).
    assert (Hs : source ∈ sources) by (by eapply list_elem_of_lookup_2).
    pose proof (AddDependency_fresh_insert _ _
                  (placed_fresh _ _ _ _ _ Hsplit Hplaced Hs)) as Hadd.
    assert (Hkeys : forall j s' k,
      <[i := source_add_dep source dep]> sources !! j = Some s' ->
      is_Some (Deps s' !! k) ->
      (j = i /\ k = ImportPath dep) \/
      exists s0, sources !! j = Some s0 /\ is_Some (Deps s0 !! k)).
    { intros j s' k Hj Hk.
      apply list_lookup_insert_Some in Hj as [(-> & <- & _)|[_ Hj]].
      - simpl in Hk. rewrite Hadd in Hk.
        apply lookup_insert_is_Some in Hk as [<-|[_ Hk]]; [by left|].
        right. by exists source.
      - right. by exists s'. }
    split.
    + intros s' k d [j Hj]%list_elem_of_lookup Hk.
      apply list_lookup_insert_Some in Hj as [(-> & <- & _)|[_ Hj]].
      * simpl in Hk. rewrite Hadd in Hk.
        apply lookup_insert_Some in Hk as [[<- <-]|[_ Hk]]; [done|].
        by apply (Hweak_deps source).
      * apply (Hweak_deps s'); [by eapply list_elem_of_lookup_2 | done].
    + intros j1 j2 s1 s2 k H1 H2 Hk1 Hk2.
      destruct (Hkeys _ _ _ H1 Hk1) as [[-> ->]|(t1 & Ht1 & Hkt1)];
        destruct (Hkeys _ _ _ H2 Hk2) as [[-> Hk]|(t2 & Ht2 & Hkt2)]; try done.
      * apply list_elem_of_lookup_2 in Ht2.
        rewrite (placed_fresh _ _ _ _ _ Hsplit Hplaced Ht2) in Hkt2.
        by destruct Hkt2.
      * subst k. apply list_elem_of_lookup_2 in Ht1.
        rewrite (placed_fresh _ _ _ _ _ Hsplit Hplaced Ht1) in Hkt1.
        by destruct Hkt1.
      * by apply (placed_once1 _ _ Hplaced j1 j2 t1 t2 k).
    + intros d [Hd| ->%list_elem_of_singleton]%elem_of_app.
      * destruct (placed_all1 _ _ Hplaced d Hd) as [(s & Hs_in & Hdeps)|Hout];
          [|by right].
        left. apply list_elem_of_lookup in Hs_in as [j Hj].
        destruct (decide (j = i)) as [->|Hne].
        -- assert (s = source) as -> by congruence.
           exists (source_add_dep source dep). split.
           { apply list_elem_of_insert. by eapply lookup_lt_Some. }
           simpl. rewrite Hadd, lookup_insert_ne; [done|].
           intros Heq.
           by apply (order_split_fresh order order_once _ _ _ d Hsplit Hd).
        -- exists s. split; [|done]. apply list_elem_of_lookup. exists j.
           by rewrite list_lookup_insert_ne.
      * left. exists (source_add_dep source dep). split.
        { apply list_elem_of_insert. by eapply lookup_lt_Some. }
        simpl. rewrite Hadd. apply lookup_insert_eq.
  - split; [done | apply (placed_once1 _ _ Hplaced) |].
    intros d [Hd| ->%list_elem_of_singleton]%elem_of_app.
    + by apply (placed_all1 _ _ Hplaced).
    + right. unfold left_out.
      destruct (Resolver sr (ImportPath dep) None) as [vcs|e] eqn:Hres.
      * right. exists vcs. split; [done|]. by apply Hskip.
      * left. by exists e.
  - set (new := fill_source (NewDependencySource (GetRoot vcs)) rev vcsSource dep).
    assert (Hdeps : Deps new = <[ImportPath dep := dep]> ∅) by done.
    split.
    + intros s k d [Hs| ->%list_elem_of_singleton]%elem_of_app Hk.
      * by apply (Hweak_deps s).
      * rewrite Hdeps in Hk.
        apply lookup_insert_Some in Hk as [[<- <-]|[_ Hk]]; [done|].
        by rewrite lookup_empty in Hk.
    + assert (Hnew : forall s k, s ∈ sources -> is_Some (Deps s !! k) ->
                ~ is_Some (Deps new !! k)).
      { intros s k Hs Hk Hk'. rewrite Hdeps in Hk'.
        apply lookup_insert_is_Some in Hk' as [<-|[_ Hk']].
        - rewrite (placed_fresh _ _ _ _ _ Hsplit Hplaced Hs) in Hk.
          by destruct Hk.
        - rewrite lookup_empty in Hk'. by destruct Hk'. }
      intros i j s s' k Hi Hj Hk Hk'.
      apply lookup_app_Some in Hi as [Hi|[Hi Hi']];
        apply lookup_app_Some in Hj as [Hj|[Hj Hj']].
      * by apply (placed_once1 _ _ Hplaced i j s s' k).
      * apply list_lookup_singleton_Some in Hj' as [_ <-].
        destruct (Hnew s k); [by eapply list_elem_of_lookup_2 | done | done].
      * apply list_lookup_singleton_Some in Hi' as [_ <-].
        destruct (Hnew s' k); [by eapply list_elem_of_lookup_2 | done | done].
      * apply list_lookup_singleton_Some in Hi' as [Hi' _].
        apply list_lookup_singleton_Some in Hj' as [Hj' _]. lia.
    + intros d [Hd| ->%list_elem_of_singleton]%elem_of_app.
      * destruct (placed_all1 _ _ Hplaced d Hd) as [(s & Hs & Hk)|Hout];
          [|by right].
        left. exists s. split; [apply elem_of_app; by left | done].
      * left. exists new. split; [apply elem_of_app; right; apply list_elem_of_here|].
        rewrite Hdeps. apply lookup_insert_eq.
Qed.

Lemma resolve_loop_placed rest processed sources final :
  processed ++ rest = order ->
  placed1 processed sources ->
  resolve_loop PackageSource PathIsChild sr rest sources = (Some final, None) ->
  placed1 order final.
Proof.
  revert processed sources.
  induction rest as [|dep rest IH]; intros processed sources Hsplit Hplaced.
  - intros [= <-]. by rewrite app_nil_r in Hsplit; subst.
  - rewrite resolve_loop_cons.
    destruct (resolve_dep PackageSource PathIsChild sr sources dep)
      as [sources'|e] eqn:Hstep; [|done].
    apply (IH (processed ++ [dep])).
    + by rewrite <- app_assoc.
    + eapply continues_placed; [done..|]. by apply resolve_dep_Continue.
Qed.

(** After a successful pass over dependencies of different import paths,
    every dependency is, under its import path, in exactly one source,
    unless its repository was not found or is at the save root or above;
    and the sources hold nothing but dependencies of the graph. *)
Theorem every_dependency_placed sources :
  ResolveSources PackageSource PathIsChild sr order = (Some sources, None) ->
  (forall dep, dep ∈ order ->
     (exists i source,
        sources !! i = Some source /\
        Deps source !! ImportPath dep = Some dep /\
        forall j s, sources !! j = Some s ->
                    is_Some (Deps s !! ImportPath dep) -> j = i) \/
     left_out PackageSource PathIsChild sr dep) /\
  (forall source k dep,
     source ∈ sources -> Deps source !! k = Some dep ->
     dep ∈ order /\ ImportPath dep = k).
Proof.
  intros Hrun.
  assert (Hplaced : placed1 order sources).
  { apply (resolve_loop_placed order [] [] sources); [done | | done].
    apply placed_nil. }
  split; [|apply (placed_deps1 _ _ Hplaced)].
  intros dep Hdep.
  destruct (placed_all1 _ _ Hplaced dep Hdep) as [(s & Hs & Hk)|Hout];
    [left | by right].
  apply list_elem_of_lookup in Hs as [i Hi].
  exists i, s. split; [done|]. split; [done|].
  intros j s' Hj Hk'. by apply (placed_once1 _ _ Hplaced j i s' s (ImportPath dep)).
Qed.
End PlacementFacts.

(** The pass over the four packages of the example graph returns one source,
    that of the checkout [example.org/repo]. *)
Lemma repo_source_well_formed :
  let sr := ex_resolver ex_table false in
  let order := [cmd; sub1; lost; sub2] in
  let sources :=
    sources_of (ResolveSources ex_PackageSource ex_PathIsChild sr order) in
  length sources <= length order /\
  forall source, source ∈ sources ->
    well_formed_source source /\
    exists dep, dep ∈ order /\ source_of_repo sr dep source.
Proof.
  intros sr order sources.
  apply (sources_well_formed ex_PackageSource ex_PathIsChild sr order sources).
  vm_compute. reflexivity.
Defined.

(** A checkout on the branch [feature] whose revision cannot be told. *)
Lemma feature_branch_is_the_revision :
  let sr := ex_resolver
              [("example.org/repo/sub1", vcs_on_branch "example.org/repo")]
              true in
  exists source,
    resolve_dep ex_PackageSource ex_PathIsChild sr [] sub1 =
      Continue ([] ++ [source]) /\
    Root source = GetRoot (vcs_on_branch "example.org/repo") /\
    OnDiskRevision source = "feature" /\
    Revisions source = {["feature"]} /\
    Deps source !! ImportPath sub1 = Some sub1.
Proof.
  intros sr.
  apply (branch_is_the_revision ex_PackageSource ex_PathIsChild sr [] sub1
           (vcs_on_branch "example.org/repo") "feature"
           "https://example.org/repo.git").
  - reflexivity.
  - reflexivity.
  - reflexivity.
  - vm_compute. reflexivity.
  - reflexivity.
  - reflexivity.
Defined.

(** Without branches the same checkout ends the pass. *)
Example feature_branch_without_branches :
  ResolveSources ex_PackageSource ex_PathIsChild
    (ex_resolver [("example.org/repo/sub1", vcs_on_branch "example.org/repo")]
       false) [sub1] =
  (None, Some (errorString
     "cant get revision from vcs at example.org/repo exit status 128")).
Proof. vm_compute. reflexivity. Qed.

(** The table of the example answers every package with a repository above
    it. *)
Lemma example_deps_under_root :
  let sr := ex_resolver nested_table false in
  let order := [tools; sub1; cmd; sub2] in
  let sources :=
    sources_of (ResolveSources ex_PackageSource ex_PathIsChild sr order) in
  Root <$> sources = ["example.org"] /\
  forall source k,
    source ∈ sources -> is_Some (Deps source !! k) ->
    under ex_PathIsChild (Root source) k = true.
Proof.
  intros sr order sources. split; [vm_compute; reflexivity|].
  apply (deps_under_root ex_PackageSource ex_PathIsChild sr order sources).
  - intros dep vcs Hin Hres.
    each_member Hin; vm_compute in Hres; injection Hres as <-; reflexivity.
  - vm_compute. reflexivity.
Defined.

(** In the example graph the two packages of [example.org/repo] are placed,
    the project's own package and the one without a repository are left
    out. *)
Lemma example_graph_placed :
  let sr := ex_resolver ex_table false in
  let order := [cmd; sub1; lost; sub2] in
  let sources :=
    sources_of (ResolveSources ex_PackageSource ex_PathIsChild sr order) in
  (forall dep, dep ∈ order ->
     (exists i source,
        sources !! i = Some source /\
        Deps source !! ImportPath dep = Some dep /\
        forall j s, sources !! j = Some s ->
                    is_Some (Deps s !! ImportPath dep) -> j = i) \/
     left_out ex_PackageSource ex_PathIsChild sr dep) /\
  (forall source k dep,
     source ∈ sources -> Deps source !! k = Some dep ->
     dep ∈ order /\ ImportPath dep = k).
Proof.
  intros sr order sources.
  apply (every_dependency_placed ex_PackageSource ex_PathIsChild sr order).
  - apply (bool_decide_unpack (NoDup (ImportPath <$> order))).
    vm_compute. exact I.
  - vm_compute. reflexivity.
Defined.
